(** * parse_into: the dedicated handlers of [boost/json/detail/parse_into.hpp]

    A shallow embedding of the handler tree that converts a stream of parser
    events into a typed value, and the properties of it that the
    specification states.

    Conventions of the embedding.

    - A C++ target type [V] is a term of [ty]; the conversion category that
      [generic_conversion_category<V>] selects is the constructor of that
      term.
    - A handler object is a term of [handler] holding the data members of the
      class (without the two pointers [value_] and [parent_]).  The object
      [*value_] is threaded explicitly: every event member function takes the
      handler and its target and returns both again.
    - [parent_->signal_value()] and [parent_->signal_end()] are returned to
      the caller as a [signal]; the caller, which is the parent, then runs its
      own [signal_value] / [signal_end] on its own members.  In the source
      every such call is the last action of the member function, except in
      the tuple handler's [on_array_end], where only an assignment to the
      handler's own [inner_active_] follows, which no parent reads.
    - [bool] results and the [error_code&] out-parameter are one [outcome]. *)

From stdpp Require Import base numbers list strings gmap.

Local Open Scope Z_scope.
Set Warnings "-register-all".

(** ** Errors, events, signals *)

(** The values of [error] that [BOOST_JSON_FAIL] is called with in this file. *)
Inductive error : Set :=
| not_integer | not_double | not_string | not_bool | not_null
| not_exact | unknown_name | not_array | not_object
| size_mismatch | extra_data.

(** A [double] as [on_double] carries it: its object representation. *)
Inductive double : Set := double_literal (bits : Z).

(** The fourteen event member functions that every nested handler has, with
    their arguments other than [error_code&]. *)
Inductive event : Set :=
| on_object_begin
| on_object_end (n : N)
| on_array_begin
| on_array_end (n : N)
| on_key_part (sv : string) (n : N)
| on_key (sv : string) (n : N)
| on_string_part (sv : string) (n : N)
| on_string (sv : string) (n : N)
| on_number_part (sv : string)
| on_int64 (v : Z) (sv : string)
| on_uint64 (v : Z) (sv : string)
| on_double (v : double) (sv : string)
| on_bool (v : bool)
| on_null.

(** The two member functions a child calls on its parent. *)
Inductive signal : Set := signal_value | signal_end.

(** What one event member function did: [Success s] is [return true], with
    [s] the call made on [parent_], if any; [Failure e] is
    [BOOST_JSON_FAIL(ec, e); return false].  [Ill_typed] marks a handler or
    target that is not of the instantiated type, which the C++ type system
    excludes. *)
Inductive outcome : Set :=
| Success (s : option signal)
| Failure (ec : error)
| Ill_typed.

(** ** Target types and values *)

(** An integral type: [std::is_signed<V>] and its width in bits. *)
Record int_type : Set := IntType { is_signed : bool; width : Z }.

Definition int64_t : int_type := IntType true 64.
Definition uint64_t : int_type := IntType false 64.
Definition make_unsigned (V : int_type) : int_type := IntType false (width V).

Definition numeric_limits_min (V : int_type) : Z :=
  if is_signed V then - 2 ^ (width V - 1) else 0.

Definition numeric_limits_max (V : int_type) : Z :=
  if is_signed V then 2 ^ (width V - 1) - 1 else 2 ^ width V - 1.

(** [static_cast<V>(z)]: reduction modulo [2 ^ width V] into the range of [V]. *)
Definition static_cast (V : int_type) (z : Z) : Z :=
  if is_signed V
  then (z + 2 ^ (width V - 1)) mod 2 ^ width V - 2 ^ (width V - 1)
  else z mod 2 ^ width V.

(** A floating-point type: the three of [std::is_floating_point]. *)
Inductive floating_type : Set := float_t | double_t | long_double_t.

(** An object of a floating-point type.  Rounding is outside this
    development: the result of [static_cast<V>(v)] is kept as the conversion
    that produced it, the type [V] it converts to and the number [v]
    converted, which an event carried as a [std::int64_t], a [std::uint64_t]
    or a [double]. *)
Inductive floating : Set :=
| floating_of_int64 (V : floating_type) (v : Z)
| floating_of_uint64 (V : floating_type) (v : Z)
| floating_of_double (V : floating_type) (v : double).

(** The type a conversion has converted to. *)
Definition floating_type_of (x : floating) : floating_type :=
  match x with
  | floating_of_int64 V _ | floating_of_uint64 V _ | floating_of_double V _ => V
  end.

(** The target types, one constructor per conversion category.  An enum
    carries its described enumerators (name, value), a described class its
    described public members (name, type), both in declaration order. *)
Inductive ty : Type :=
| integral (V : int_type)
| floating_point (V : floating_type)
| string_like
| boolean
| null_like
| described_enum (De : list (string * Z))
| sequence (T : ty)
| map_like (T : ty)
| tuple (Ts : list ty)
| described_class (Dm : list (string * ty))
| optional (T : ty).

Inductive value : Type :=
| VInt (z : Z)
| VFloating (x : floating)
| VString (s : string)
| VBool (b : bool)
| VNull
| VEnum (e : Z)
| VSeq (l : list value)
| VMap (m : gmap string value)
| VTuple (l : list value)
| VStruct (l : list value)
| VOpt (o : option value).

(** [V{}]: the value-initialized object of each type; that of a
    floating-point type is zero, the conversion of the integer 0. *)
Fixpoint default_value (t : ty) : value :=
  match t with
  | integral _ => VInt 0
  | floating_point V => VFloating (floating_of_int64 V 0)
  | string_like => VString ""
  | boolean => VBool false
  | null_like => VNull
  | described_enum _ => VEnum 0
  | sequence _ => VSeq []
  | map_like _ => VMap ∅
  | tuple Ts => VTuple (map default_value Ts)
  | described_class Dm => VStruct (map (λ D, default_value D.2) Dm)
  | optional _ => VOpt None
  end.

(** What [std::move] leaves of the object moved from, member by member: a
    scalar keeps its value; a string or a container with the default
    allocator gives its contents away and is left empty, which the standard
    library implementations do (the standard only requires a valid state);
    an optional stays engaged over what is left of its value. *)
Fixpoint moved_from (v : value) : value :=
  match v with
  | VString _ => VString ""
  | VSeq _ => VSeq []
  | VMap _ => VMap ∅
  | VTuple l => VTuple (map moved_from l)
  | VStruct l => VStruct (map moved_from l)
  | VOpt o => VOpt (option_map moved_from o)
  | VInt _ | VFloating _ | VBool _ | VNull | VEnum _ => v
  end.

(** ** Handler objects *)

(** The data members of each [converting_handler] specialisation. *)
Inductive handler : Type :=
| scalar_members
| enum_members (name_ : string)
| sequence_members (next_value_ : value) (inner_ : handler) (inner_active_ : bool)
| map_members (key_ : string) (next_value_ : value) (inner_ : handler)
    (inner_active_ : bool)
| tuple_members (handlers_ : list handler) (inner_active_ : Z)
| class_members (key_ : string) (handlers_ : list handler) (inner_active_ : Z)
| optional_members (inner_value_ : value) (inner_ : handler) (inner_active_ : bool).

(** The constructors [converting_handler( V* v, P* p )], with the default
    member initializers. *)
Fixpoint make_handler (t : ty) : handler :=
  match t with
  | integral _ | floating_point _ | string_like | boolean | null_like =>
      scalar_members
  | described_enum _ => enum_members ""
  | sequence T => sequence_members (default_value T) (make_handler T) false
  | map_like T => map_members "" (default_value T) (make_handler T) false
  | tuple Ts => tuple_members (map make_handler Ts) (-1)
  | described_class Dm =>
      class_members "" (map (λ D, make_handler D.2) Dm) (-1)
  | optional T => optional_members (default_value T) (make_handler T) false
  end.

(** An event member function: event, handler, target in; handler, target and
    outcome out. *)
Definition step : Type := event → handler → value → handler * value * outcome.

(** ** Scalar handlers *)

(** [handler_error_base<E>]: every event fails with [E]. *)
Definition handler_error_base (E : error) : step :=
  λ _ h v, (h, v, Failure E).

(** [scalar_handler<P, E>]: [on_array_end] is taken over and calls
    [parent_->signal_end()]. *)
Definition scalar_handler (E : error) : step :=
  λ e h v,
    match e with
    | on_array_end _ => (h, v, Success (Some signal_end))
    | _ => handler_error_base E e h v
    end.

(** [integral_in_range<V>( std::int64_t v )], both overloads.  The operands
    of each comparison are first brought to their common type, [std::int64_t]
    for a signed [V] and [std::uint64_t] for an unsigned one. *)
Definition integral_in_range_int64 (V : int_type) (v : Z) : bool :=
  if is_signed V
  then bool_decide (static_cast int64_t (numeric_limits_min V) ≤ v)
       && bool_decide (v ≤ static_cast int64_t (numeric_limits_max V))
  else bool_decide (0 ≤ v)
       && bool_decide
            (static_cast uint64_t v ≤ static_cast uint64_t (numeric_limits_max V)).

(** [integral_in_range<V>( std::uint64_t v )]. *)
Definition integral_in_range_uint64 (V : int_type) (v : Z) : bool :=
  bool_decide
    (v ≤ static_cast uint64_t
           (static_cast (make_unsigned V) (numeric_limits_max V))).

(** [converting_handler<integral_conversion_tag, V, P>]. *)
Definition integral_handler (V : int_type) : step :=
  λ e h value_,
    match e with
    | on_number_part _ => (h, value_, Success None)
    | on_int64 v _ =>
        if integral_in_range_int64 V v
        then (h, VInt (static_cast V v), Success (Some signal_value))
        else (h, value_, Failure not_exact)
    | on_uint64 v _ =>
        if integral_in_range_uint64 V v
        then (h, VInt (static_cast V v), Success (Some signal_value))
        else (h, value_, Failure not_exact)
    | _ => scalar_handler not_integer e h value_
    end.

(** [converting_handler<floating_point_conversion_tag, V, P>]: each number
    event stores [static_cast<V>( v )]. *)
Definition floating_point_handler (V : floating_type) : step :=
  λ e h value_,
    match e with
    | on_number_part _ => (h, value_, Success None)
    | on_int64 v _ =>
        (h, VFloating (floating_of_int64 V v), Success (Some signal_value))
    | on_uint64 v _ =>
        (h, VFloating (floating_of_uint64 V v), Success (Some signal_value))
    | on_double v _ =>
        (h, VFloating (floating_of_double V v), Success (Some signal_value))
    | _ => scalar_handler not_double e h value_
    end.

(** [converting_handler<string_like_conversion_tag, V, P>]. *)
Definition string_like_handler : step :=
  λ e h value_,
    match e with
    | on_string_part sv _ =>
        match value_ with
        | VString s => (h, VString (s +:+ sv), Success None)
        | _ => (h, value_, Ill_typed)
        end
    | on_string sv _ =>
        match value_ with
        | VString s => (h, VString (s +:+ sv), Success (Some signal_value))
        | _ => (h, value_, Ill_typed)
        end
    | _ => scalar_handler not_string e h value_
    end.

(** [converting_handler<bool_conversion_tag, V, P>]. *)
Definition bool_handler : step :=
  λ e h value_,
    match e with
    | on_bool v => (h, VBool v, Success (Some signal_value))
    | _ => scalar_handler not_bool e h value_
    end.

(** [converting_handler<null_like_conversion_tag, V, P>]. *)
Definition null_like_handler : step :=
  λ e h value_,
    match e with
    | on_null => (h, default_value null_like, Success (Some signal_value))
    | _ => scalar_handler not_null e h value_
    end.

(** [name_.data()]: the characters of [name_] up to its first NUL, which is
    what a callee taking [char const*] sees. *)
Fixpoint data (name_ : string) : string :=
  match name_ with
  | EmptyString => EmptyString
  | String c rest =>
      if Ascii.eqb c Ascii.zero then EmptyString else String c (data rest)
  end.

(** Modelled from the spec: [describe::enum_from_string] belongs to
    Boost.Describe and is not in this file.  The spec gives an enum a fixed,
    order-stable list of (name, value) pairs and has the conversion fail
    when the text matches no declared name; the first pair whose name is the
    text gives the value. *)
Fixpoint enum_from_string (De : list (string * Z)) (name : string) : option Z :=
  match De with
  | [] => None
  | (n, e) :: De' => if String.eqb n name then Some e else enum_from_string De' name
  end.

(** [converting_handler<described_enum_conversion_tag, V, P>]. *)
Definition described_enum_handler (De : list (string * Z)) : step :=
  λ e h value_,
    match h with
    | enum_members name_ =>
        match e with
        | on_string_part sv _ => (enum_members (name_ +:+ sv), value_, Success None)
        | on_string sv _ =>
            let name_ := name_ +:+ sv in
            match enum_from_string De (data name_) with
            | None => (enum_members name_, value_, Failure unknown_name)
            | Some x =>
                (enum_members name_, VEnum x, Success (Some signal_value))
            end
        | _ => scalar_handler not_string e h value_
        end
    | _ => (h, value_, Ill_typed)
    end.

(** ** Sequence and map handlers *)

(** [composite_handler<D, V, P, E>::signal_end], run by a sequence or map
    handler when its child called it: [inner_active_ = false], and then
    [parent_->signal_value()], which is the signal returned. *)
Definition composite_signal_end (h : handler) : handler * option signal :=
  match h with
  | sequence_members next_value_ inner_ _ =>
      (sequence_members next_value_ inner_ false, Some signal_value)
  | map_members key_ next_value_ inner_ _ =>
      (map_members key_ next_value_ inner_ false, Some signal_value)
  | _ => (h, None)
  end.

(** [converting_handler<sequence_conversion_tag, V, P>::signal_value], the
    element type being [T]: [value_->push_back( std::move(next_value_) )],
    then [next_value_ = {}]. *)
Definition sequence_signal_value (T : ty) (h : handler) (value_ : value)
  : handler * value :=
  match h, value_ with
  | sequence_members next_value_ inner_ inner_active_, VSeq l =>
      (sequence_members (default_value T) inner_ inner_active_,
       VSeq (l ++ [next_value_]))
  | _, _ => (h, value_)
  end.

(** [converting_handler<sequence_conversion_tag, V, P>] over the handler
    [inner] of its element type.  [invoke_inner] is [return inner_.f]
    together with the call the child made on this handler. *)
Definition sequence_handler (T : ty) (inner : step) : step :=
  λ e h value_,
    match h, value_ with
    | sequence_members next_value_ inner_ inner_active_, VSeq _ =>
        let invoke_inner :=
          let '(inner_', next_value_', o) := inner e inner_ next_value_ in
          let h' := sequence_members next_value_' inner_' inner_active_ in
          match o with
          | Success (Some signal_value) =>
              let '(h'', value_') := sequence_signal_value T h' value_ in
              (h'', value_', Success None)
          | Success (Some signal_end) =>
              let '(h'', s) := composite_signal_end h' in
              (h'', value_, Success s)
          | _ => (h', value_, o)
          end in
        match e with
        | on_array_begin =>
            if inner_active_ then invoke_inner
            else (sequence_members next_value_ inner_ true, value_, Success None)
        | on_array_end _ =>
            if inner_active_ then invoke_inner
            else (h, value_, Success (Some signal_end))
        | _ =>
            (* BOOST_JSON_INVOKE_INNER of composite_handler, E = not_array *)
            if inner_active_ then invoke_inner
            else (h, value_, Failure not_array)
        end
    | _, _ => (h, value_, Ill_typed)
    end.

(** [std::map::emplace] (and that of the other maps with unique keys): the
    pair is inserted only when the map has no element with that key; an
    existing element is left as it is. *)
Definition emplace (key : string) (x : value) (m : gmap string value)
  : gmap string value :=
  match m !! key with
  | Some _ => m
  | None => <[key := x]> m
  end.

(** [converting_handler<map_like_conversion_tag, V, P>::signal_value]:
    [value_->emplace( std::move(key_), std::move(next_value_) )], then
    [key_ = {}], [next_value_ = {}], [inner_active_ = false]. *)
Definition map_signal_value (T : ty) (h : handler) (value_ : value)
  : handler * value :=
  match h, value_ with
  | map_members key_ next_value_ inner_ inner_active_, VMap m =>
      (map_members "" (default_value T) inner_ false,
       VMap (emplace key_ next_value_ m))
  | _, _ => (h, value_)
  end.

(** [converting_handler<map_like_conversion_tag, V, P>] over the handler
    [inner] of its mapped type. *)
Definition map_like_handler (T : ty) (inner : step) : step :=
  λ e h value_,
    match h, value_ with
    | map_members key_ next_value_ inner_ inner_active_, VMap _ =>
        let invoke_inner :=
          let '(inner_', next_value_', o) := inner e inner_ next_value_ in
          let h' := map_members key_ next_value_' inner_' inner_active_ in
          match o with
          | Success (Some signal_value) =>
              let '(h'', value_') := map_signal_value T h' value_ in
              (h'', value_', Success None)
          | Success (Some signal_end) =>
              let '(h'', s) := composite_signal_end h' in
              (h'', value_, Success s)
          | _ => (h', value_, o)
          end in
        match e with
        | on_object_begin =>
            if inner_active_ then invoke_inner else (h, value_, Success None)
        | on_object_end _ =>
            if inner_active_ then invoke_inner
            else (h, value_, Success (Some signal_value))
        | on_array_end _ =>
            if inner_active_ then invoke_inner
            else (h, value_, Success (Some signal_end))
        | on_key_part sv _ =>
            if inner_active_ then invoke_inner
            else (map_members (key_ +:+ sv) next_value_ inner_ inner_active_,
                  value_, Success None)
        | on_key sv _ =>
            if inner_active_ then invoke_inner
            else (map_members (key_ +:+ sv) next_value_ inner_ true,
                  value_, Success None)
        | _ =>
            (* BOOST_JSON_INVOKE_INNER of composite_handler, E = not_object *)
            if inner_active_ then invoke_inner
            else (h, value_, Failure not_object)
        end
    | _, _ => (h, value_, Ill_typed)
    end.

(** ** Tuple handler *)

(** [converting_handler<tuple_conversion_tag, T, P>] over the handlers
    [inners] of its element types; [N] is [std::tuple_size<T>::value].
    [invoke_inner] is [mp11::mp_with_index<N>( inner_active_, ... )]: the
    event goes to handler [inner_active_], whose target is element
    [inner_active_] of the tuple, and the call the child made on this handler
    is run: [signal_value] is [++inner_active_]; [signal_end] is
    [inner_active_ = -1; parent_->signal_value()]. *)
Definition tuple_handler (inners : list step) : step :=
  λ e h value_,
    match h, value_ with
    | tuple_members handlers_ inner_active_, VTuple elems =>
        let N := Z.of_nat (length inners) in
        let I := Z.to_nat inner_active_ in
        let invoke_inner :=
          match inners !! I, handlers_ !! I, elems !! I with
          | Some inner, Some inner_, Some x =>
              let '(inner_', x', o) := inner e inner_ x in
              let handlers_' := <[I := inner_']> handlers_ in
              let value_' := VTuple (<[I := x']> elems) in
              match o with
              | Success (Some signal_value) =>
                  (tuple_members handlers_' (inner_active_ + 1), value_',
                   Success None)
              | Success (Some signal_end) =>
                  (tuple_members handlers_' (-1), value_',
                   Success (Some signal_value))
              | _ => (tuple_members handlers_' inner_active_, value_', o)
              end
          | _, _, _ => (h, value_, Ill_typed)
          end in
        match e with
        | on_array_begin =>
            if bool_decide (inner_active_ < 0)
            then (tuple_members handlers_ 0, value_, Success None)
            else if bool_decide (inner_active_ >= N)
            then (tuple_members handlers_ 0, value_, Success None)
            else invoke_inner
        | on_array_end _ =>
            if bool_decide (inner_active_ < 0)
            then (h, value_, Success (Some signal_end))
            else if bool_decide (inner_active_ >= N)
            then (tuple_members handlers_ (-1), value_,
                  Success (Some signal_value))
            else invoke_inner
        | _ =>
            (* BOOST_JSON_INVOKE_INNER of the tuple handler *)
            if bool_decide (inner_active_ < 0)
            then (h, value_, Failure not_array)
            else if bool_decide (inner_active_ >= N)
            then (h, value_, Failure size_mismatch)
            else invoke_inner
        end
    | _, _ => (h, value_, Ill_typed)
    end.

(** ** Described class handler *)

(** The loop of [on_key]:
    [int i = 0; mp11::mp_for_each<Dm>( if( key_ == D.name ) inner_active_ = i; ++i; )],
    over the member names in declaration order.  The result is the final
    [inner_active_]. *)
Definition for_each_member (names : list string) (key_ : string)
    (inner_active_ : Z) : Z :=
  (foldl
     (λ '(inner_active_, i) name,
        (if String.eqb key_ name then i else inner_active_, i + 1))
     (inner_active_, 0) names).1.

(** [converting_handler<described_class_conversion_tag, V, P>] over the
    names of the described members and the handlers [inners] of their
    types.  In [invoke_inner] the call the child made on this handler is run:
    [signal_value] is [key_ = {}; inner_active_ = -1]; [signal_end] does the
    same and then calls [parent_->signal_value()]. *)
Definition described_class_handler (names : list string) (inners : list step)
  : step :=
  λ e h value_,
    match h, value_ with
    | class_members key_ handlers_ inner_active_, VStruct fields =>
        let I := Z.to_nat inner_active_ in
        let invoke_inner :=
          match inners !! I, handlers_ !! I, fields !! I with
          | Some inner, Some inner_, Some x =>
              let '(inner_', x', o) := inner e inner_ x in
              let handlers_' := <[I := inner_']> handlers_ in
              let value_' := VStruct (<[I := x']> fields) in
              match o with
              | Success (Some signal_value) =>
                  (class_members "" handlers_' (-1), value_', Success None)
              | Success (Some signal_end) =>
                  (class_members "" handlers_' (-1), value_',
                   Success (Some signal_value))
              | _ => (class_members key_ handlers_' inner_active_, value_', o)
              end
          | _, _, _ => (h, value_, Ill_typed)
          end in
        match e with
        | on_object_begin =>
            if bool_decide (inner_active_ < 0)
            then (h, value_, Success None)
            else invoke_inner
        | on_object_end _ =>
            if bool_decide (inner_active_ < 0)
            then (h, value_, Success (Some signal_value))
            else invoke_inner
        | on_array_end _ =>
            if bool_decide (inner_active_ < 0)
            then (h, value_, Success (Some signal_end))
            else invoke_inner
        | on_key_part sv _ =>
            if bool_decide (inner_active_ < 0)
            then (class_members (key_ +:+ sv) handlers_ inner_active_, value_,
                  Success None)
            else invoke_inner
        | on_key sv _ =>
            if bool_decide (inner_active_ >= 0) then invoke_inner
            else
              let key_ := key_ +:+ sv in
              let inner_active_ := for_each_member names key_ inner_active_ in
              if bool_decide (inner_active_ < 0)
              then (class_members key_ handlers_ inner_active_, value_,
                    Failure unknown_name)
              else (class_members key_ handlers_ inner_active_, value_,
                    Success None)
        | _ =>
            (* BOOST_JSON_INVOKE_INNER of the described class handler *)
            if bool_decide (inner_active_ < 0)
            then (h, value_, Failure not_object)
            else invoke_inner
        end
    | _, _ => (h, value_, Ill_typed)
    end.

(** ** Optional handler *)

(** [converting_handler<optional_conversion_tag, V, P>] over the handler
    [inner] of the wrapped type.  [invoke_inner] is
    [if( !inner_active_ ) inner_active_ = true; return inner_.fn;] with the
    call the child made on this handler: [signal_value] is
    [*value_ = std::move(inner_value_); inner_active_ = false;
    parent_->signal_value()], [signal_end] is [parent_->signal_end()].
    Nothing resets [inner_value_] after the move: the next value is read
    into what the move left of it. *)
Definition optional_handler (inner : step) : step :=
  λ e h value_,
    match h with
    | optional_members inner_value_ inner_ inner_active_ =>
        let invoke_inner :=
          let '(inner_', inner_value_', o) := inner e inner_ inner_value_ in
          match o with
          | Success (Some signal_value) =>
              (optional_members (moved_from inner_value_') inner_' false,
               VOpt (Some inner_value_'), Success (Some signal_value))
          | Success (Some signal_end) =>
              (optional_members inner_value_' inner_' true, value_,
               Success (Some signal_end))
          | _ => (optional_members inner_value_' inner_' true, value_, o)
          end in
        match e with
        | on_array_end _ =>
            if negb inner_active_
            then (h, value_, Success (Some signal_end))
            else invoke_inner
        | on_null =>
            if negb inner_active_
            then (h, VOpt None, Success (Some signal_value))
            else invoke_inner
        | _ => invoke_inner
        end
    | _ => (h, value_, Ill_typed)
    end.

(** ** Dispatch on the conversion category *)

(** [get_handler<V, P>], that is
    [converting_handler< generic_conversion_category<V>, V, P >]. *)
Fixpoint converting_handler (t : ty) : step :=
  match t with
  | integral V => integral_handler V
  | floating_point V => floating_point_handler V
  | string_like => string_like_handler
  | boolean => bool_handler
  | null_like => null_like_handler
  | described_enum De => described_enum_handler De
  | sequence T => sequence_handler T (converting_handler T)
  | map_like T => map_like_handler T (converting_handler T)
  | tuple Ts => tuple_handler (map converting_handler Ts)
  | described_class Dm =>
      described_class_handler (map fst Dm)
        (map (λ D, converting_handler D.2) Dm)
  | optional T => optional_handler (converting_handler T)
  end.

(** ** The top handler *)

(** The member functions of [into_handler<V>]: the fourteen forwarded
    events, and the four it handles itself. *)
Inductive parser_event : Set :=
| on_document_begin
| on_document_end
| on_comment_part (sv : string)
| on_comment (sv : string)
| forwarded (e : event).

(** The data members of [into_handler<V>]. *)
Record into_members : Type :=
  IntoMembers { into_inner_ : handler; into_inner_active_ : bool }.

(** [into_handler( V* v )]: [inner_( v, this )], [inner_active_ = true]. *)
Definition make_into_handler (t : ty) : into_members :=
  IntoMembers (make_handler t) true.

(** [into_handler<V>].  Its own [signal_value] and [signal_end] have empty
    bodies, so a call the inner handler made on it is dropped and the outcome
    carries no signal. *)
Definition into_handler (t : ty) (pe : parser_event) (h : into_members)
    (v : value) : into_members * value * outcome :=
  match pe with
  | on_document_begin => (h, v, Success None)
  | on_document_end => (IntoMembers (into_inner_ h) false, v, Success None)
  | on_comment_part _ => (h, v, Success None)
  | on_comment _ => (h, v, Success None)
  | forwarded e =>
      (* BOOST_JSON_INVOKE_INNER of into_handler *)
      if negb (into_inner_active_ h) then (h, v, Failure extra_data)
      else
        let '(inner_', v', o) := converting_handler t e (into_inner_ h) v in
        (IntoMembers inner_' (into_inner_active_ h), v',
         match o with
         | Success _ => Success None
         | _ => o
         end)
  end.

(** ** Feeding a stream of events *)

(** What a run of events did to a nested handler: the handler and target
    after the last event handled, the calls made on the parent in order, and
    [None] when every event returned [true], else the outcome of the event
    that did not. *)
Record run : Type :=
  Run { run_handler : handler; run_target : value;
        run_signals : list signal; run_stopped : option outcome }.

(** The token source calls one event member function at a time and stops at
    the first one that does not return [true]. *)
Fixpoint feed (f : step) (es : list event) (h : handler) (v : value)
    (signals : list signal) : run :=
  match es with
  | [] => Run h v signals None
  | e :: es' =>
      let '(h', v', o) := f e h v in
      match o with
      | Success s => feed f es' h' v' (signals ++ option_list s)
      | _ => Run h' v' signals (Some o)
      end
  end.

(** The same for the top handler. *)
Fixpoint parse (t : ty) (pes : list parser_event) (h : into_members)
    (v : value) : into_members * value * option outcome :=
  match pes with
  | [] => (h, v, None)
  | pe :: pes' =>
      let '(h', v', o) := into_handler t pe h v in
      match o with
      | Success _ => parse t pes' h' v'
      | _ => (h', v', Some o)
      end
  end.

(** The integral types used in the examples. *)
Definition int8_t : int_type := IntType true 8.
Definition uint8_t : int_type := IntType false 8.
Definition int32_t : int_type := IntType true 32.

(** ** Properties of event member functions *)

(** A failing event leaves the target as it was. *)
Definition keeps_target_on_failure (f : step) : Prop :=
  ∀ e h v h' v' ec, f e h v = (h', v', Failure ec) → v' = v.

(** [signal_end] is called on the parent by [on_array_end] only. *)
Definition signal_end_on_array_end_only (f : step) : Prop :=
  ∀ e h v h' v', f e h v = (h', v', Success (Some signal_end)) →
    ∃ n, e = on_array_end n.

(** ** Typing of targets and handlers *)

(** The types whose integral parts have a positive width. *)
Inductive wf_ty : ty → Prop :=
| wf_integral V : 0 < width V → wf_ty (integral V)
| wf_floating_point V : wf_ty (floating_point V)
| wf_string_like : wf_ty string_like
| wf_boolean : wf_ty boolean
| wf_null_like : wf_ty null_like
| wf_described_enum De : wf_ty (described_enum De)
| wf_sequence T : wf_ty T → wf_ty (sequence T)
| wf_map_like T : wf_ty T → wf_ty (map_like T)
| wf_tuple Ts : Forall wf_ty Ts → wf_ty (tuple Ts)
| wf_described_class Dm : Forall (λ D, wf_ty D.2) Dm → wf_ty (described_class Dm)
| wf_optional T : wf_ty T → wf_ty (optional T).

(** [has_type t v]: [v] is an object of the C++ type [t].  An integer lies
    within the limits of its type; a floating-point object is a conversion
    to its type; an enum holds a described enumerator or the value 0 it is
    initialized with. *)
Inductive has_type : ty → value → Prop :=
| has_type_integral V z :
    numeric_limits_min V ≤ z ≤ numeric_limits_max V →
    has_type (integral V) (VInt z)
| has_type_floating_point V x :
    floating_type_of x = V → has_type (floating_point V) (VFloating x)
| has_type_string_like s : has_type string_like (VString s)
| has_type_boolean b : has_type boolean (VBool b)
| has_type_null_like : has_type null_like VNull
| has_type_described_enum De x :
    x = 0 ∨ x ∈ De.*2 → has_type (described_enum De) (VEnum x)
| has_type_sequence T l :
    Forall (has_type T) l → has_type (sequence T) (VSeq l)
| has_type_map_like T m :
    map_Forall (λ _, has_type T) m → has_type (map_like T) (VMap m)
| has_type_tuple Ts vs :
    Forall2 has_type Ts vs → has_type (tuple Ts) (VTuple vs)
| has_type_described_class Dm vs :
    Forall2 (λ D, has_type D.2) Dm vs →
    has_type (described_class Dm) (VStruct vs)
| has_type_optional_none T : has_type (optional T) (VOpt None)
| has_type_optional_some T x :
    has_type T x → has_type (optional T) (VOpt (Some x)).

(** [handler_for t h]: [h] is a handler object of the specialisation for
    [t]: its members have their types, and the index of a tuple handler lies
    between -1 and the arity, that of a described class handler between -1
    and the last member. *)
Inductive handler_for : ty → handler → Prop :=
| handler_for_integral V : handler_for (integral V) scalar_members
| handler_for_floating_point V : handler_for (floating_point V) scalar_members
| handler_for_string_like : handler_for string_like scalar_members
| handler_for_boolean : handler_for boolean scalar_members
| handler_for_null_like : handler_for null_like scalar_members
| handler_for_described_enum De name_ :
    handler_for (described_enum De) (enum_members name_)
| handler_for_sequence T next_value_ inner_ inner_active_ :
    has_type T next_value_ → handler_for T inner_ →
    handler_for (sequence T)
      (sequence_members next_value_ inner_ inner_active_)
| handler_for_map_like T key_ next_value_ inner_ inner_active_ :
    has_type T next_value_ → handler_for T inner_ →
    handler_for (map_like T)
      (map_members key_ next_value_ inner_ inner_active_)
| handler_for_tuple Ts handlers_ inner_active_ :
    Forall2 handler_for Ts handlers_ →
    -1 ≤ inner_active_ ≤ Z.of_nat (length Ts) →
    handler_for (tuple Ts) (tuple_members handlers_ inner_active_)
| handler_for_described_class Dm key_ handlers_ inner_active_ :
    Forall2 (λ D, handler_for D.2) Dm handlers_ →
    -1 ≤ inner_active_ < Z.of_nat (length Dm) →
    handler_for (described_class Dm)
      (class_members key_ handlers_ inner_active_)
| handler_for_optional T inner_value_ inner_ inner_active_ :
    has_type T inner_value_ → handler_for T inner_ →
    handler_for (optional T)
      (optional_members inner_value_ inner_ inner_active_).

(** An event member function of the specialisation for [t] keeps the typing
    and does not meet an object of another type. *)
Definition preserves_typing (t : ty) (f : step) : Prop :=
  ∀ e h v h' v' o,
    handler_for t h → has_type t v → f e h v = (h', v', o) →
    handler_for t h' ∧ has_type t v' ∧ o ≠ Ill_typed.

(** ** The errors of a type *)

(** The errors named in the specialisation for [t] and in those of the
    types inside it. *)
Fixpoint errors_of (t : ty) : list error :=
  match t with
  | integral _ => [not_integer; not_exact]
  | floating_point _ => [not_double]
  | string_like => [not_string]
  | boolean => [not_bool]
  | null_like => [not_null]
  | described_enum _ => [not_string; unknown_name]
  | sequence T => not_array :: errors_of T
  | map_like T => not_object :: errors_of T
  | tuple Ts => not_array :: size_mismatch :: mjoin (map errors_of Ts)
  | described_class Dm =>
      not_object :: unknown_name :: mjoin (map (λ D, errors_of D.2) Dm)
  | optional T => errors_of T
  end.

(** An event member function fails with the errors [ecs] only. *)
Definition fails_within (ecs : list error) (f : step) : Prop :=
  ∀ e h v h' v' ec, f e h v = (h', v', Failure ec) → ec ∈ ecs.

(** ** Comments *)

(** The two comment member functions of [into_handler]. *)
Definition is_comment (pe : parser_event) : bool :=
  match pe with
  | on_comment_part _ | on_comment _ => true
  | _ => false
  end.

(** ** Runs that build one value *)

(** [quiet f es h v]: every event of [es] returns [true] without a call on
    the parent; the handler and target after the last one. *)
Fixpoint quiet (f : step) (es : list event) (h : handler) (v : value)
  : option (handler * value) :=
  match es with
  | [] => Some (h, v)
  | e :: es' =>
      match f e h v with
      | (h', v', Success None) => quiet f es' h' v'
      | _ => None
      end
  end.

(** [completes f es h v]: the events of [es] are exactly one value for the
    handler: all but the last are quiet, and the last returns [true] and
    calls [signal_value] on the parent; the handler and target after it. *)
Fixpoint completes (f : step) (es : list event) (h : handler) (v : value)
  : option (handler * value) :=
  match es with
  | [] => None
  | e :: es' =>
      match f e h v, es' with
      | (h', v', Success (Some signal_value)), [] => Some (h', v')
      | (h', v', Success None), _ :: _ => completes f es' h' v'
      | _, _ => None
      end
  end.

(** ** Writing a value out as events *)

(** The events a parser produces for the JSON text of a value of type [t]:
    a number, string, boolean or null for a scalar, the elements between
    [on_array_begin] and [on_array_end] for a sequence or tuple, each key
    before its value between [on_object_begin] and [on_object_end] for a map
    or described class, in the order of the members for the latter; [null]
    or the wrapped value for an optional.  A floating-point object is
    written as the number it is the conversion of.  An enum has no events
    here. *)
Fixpoint events_of (t : ty) (v : value) : list event :=
  match t, v with
  | integral _, VInt z =>
      [if bool_decide (z ≤ numeric_limits_max int64_t)
       then on_int64 z "" else on_uint64 z ""]
  | floating_point _, VFloating (floating_of_int64 _ v) => [on_int64 v ""]
  | floating_point _, VFloating (floating_of_uint64 _ v) => [on_uint64 v ""]
  | floating_point _, VFloating (floating_of_double _ v) => [on_double v ""]
  | string_like, VString s => [on_string s (N.of_nat (String.length s))]
  | boolean, VBool b => [on_bool b]
  | null_like, VNull => [on_null]
  | sequence T, VSeq l =>
      on_array_begin :: mjoin (map (events_of T) l)
        ++ [on_array_end (N.of_nat (length l))]
  | map_like T, VMap m =>
      on_object_begin
        :: mjoin (map (λ kx, on_key kx.1 (N.of_nat (String.length kx.1))
                               :: events_of T kx.2)
                    (map_to_list m))
        ++ [on_object_end (N.of_nat (size m))]
  | tuple Ts, VTuple vs =>
      on_array_begin :: mjoin (zip_with events_of Ts vs)
        ++ [on_array_end (N.of_nat (length vs))]
  | described_class Dm, VStruct vs =>
      on_object_begin
        :: mjoin (zip_with
                    (λ D x, on_key D.1 (N.of_nat (String.length D.1))
                              :: events_of D.2 x)
                    Dm vs)
        ++ [on_object_end (N.of_nat (length vs))]
  | optional T, VOpt None => [on_null]
  | optional T, VOpt (Some x) => events_of T x
  | _, _ => []
  end.

(** The types for which writing out and reading back is the identity:
    integral types of at most 64 bits, floating point, strings, booleans,
    null, and the sequences, maps, tuples and described classes (with
    distinct member names) over them, and optionals of an integral type,
    floating point or boolean. *)
Inductive round_trips : ty → Prop :=
| round_trips_integral V : 0 < width V ≤ 64 → round_trips (integral V)
| round_trips_floating_point V : round_trips (floating_point V)
| round_trips_string_like : round_trips string_like
| round_trips_boolean : round_trips boolean
| round_trips_null_like : round_trips null_like
| round_trips_sequence T : round_trips T → round_trips (sequence T)
| round_trips_map_like T : round_trips T → round_trips (map_like T)
| round_trips_tuple Ts : Forall round_trips Ts → round_trips (tuple Ts)
| round_trips_described_class Dm :
    NoDup Dm.*1 → Forall (λ D, round_trips D.2) Dm →
    round_trips (described_class Dm)
| round_trips_optional_integral V :
    0 < width V ≤ 64 → round_trips (optional (integral V))
| round_trips_optional_floating_point V :
    round_trips (optional (floating_point V))
| round_trips_optional_boolean : round_trips (optional boolean).

(** [idle t h]: a handler for [t] between two values: no child is active,
    the key and the staged value are reset. *)
Inductive idle : ty → handler → Prop :=
| idle_integral V : idle (integral V) scalar_members
| idle_floating_point V : idle (floating_point V) scalar_members
| idle_string_like : idle string_like scalar_members
| idle_boolean : idle boolean scalar_members
| idle_null_like : idle null_like scalar_members
| idle_described_enum De name_ : idle (described_enum De) (enum_members name_)
| idle_sequence T inner_ :
    idle T inner_ →
    idle (sequence T) (sequence_members (default_value T) inner_ false)
| idle_map_like T inner_ :
    idle T inner_ →
    idle (map_like T) (map_members "" (default_value T) inner_ false)
| idle_tuple Ts handlers_ :
    Forall2 idle Ts handlers_ → idle (tuple Ts) (tuple_members handlers_ (-1))
| idle_described_class Dm handlers_ :
    Forall2 (λ D, idle D.2) Dm handlers_ →
    idle (described_class Dm) (class_members "" handlers_ (-1))
| idle_optional T inner_value_ inner_ :
    idle T inner_ →
    idle (optional T) (optional_members inner_value_ inner_ false).

(** The first value given for a key in a list of entries. *)
Fixpoint first_with_key (key : string) (kxs : list (string * value))
  : option value :=
  match kxs with
  | [] => None
  | (k, x) :: kxs' =>
      if String.eqb k key then Some x else first_with_key key kxs'
  end.

(** [reads_back t]: from an idle handler and the value-initialized target
    the events of a value of type [t] build exactly that value and leave the
    handler idle; and an idle handler answers [on_array_end] by
    [signal_end]. *)
Definition reads_back (t : ty) : Prop :=
  (∀ h x, idle t h → has_type t x →
     ∃ h', idle t h'
           ∧ completes (converting_handler t) (events_of t x) h
               (default_value t) = Some (h', x))
  ∧ (∀ h n, idle t h →
       converting_handler t (on_array_end n) h (default_value t)
       = (h, default_value t, Success (Some signal_end))).

(** The events of member [i] of a described class: its name as a key, then
    the events of its value. *)
Definition member_events (Dm : list (string * ty)) (vs : list value)
    (i : nat) : list event :=
  match Dm !! i, vs !! i with
  | Some D, Some x =>
      on_key D.1 (N.of_nat (String.length D.1)) :: events_of D.2 x
  | _, _ => []
  end.

(** * Properties *)

(** Closed facts about the limits of concrete types, for the examples. *)
Ltac limits := vm_compute; try split; discriminate.

(** The limits of the two types an integer event carries, written out. *)
Ltac limits_unfold :=
  change (numeric_limits_min int64_t) with (- 2 ^ 63);
  change (numeric_limits_max int64_t) with (2 ^ 63 - 1);
  change (numeric_limits_min uint64_t) with 0;
  change (numeric_limits_max uint64_t) with (2 * 2 ^ 63 - 1);
  lia.

(** ** Integral range *)

Lemma static_cast_int64_id (z : Z) :
  - 2 ^ 63 ≤ z < 2 ^ 63 → static_cast int64_t z = z.
Proof.
  intros Hz. unfold static_cast. simpl.
  change (64 - 1) with 63. change (2 ^ 64) with (2 * 2 ^ 63).
  rewrite Z.mod_small by lia. lia.
Qed.

Lemma static_cast_uint64_id (z : Z) :
  0 ≤ z < 2 * 2 ^ 63 → static_cast uint64_t z = z.
Proof. intros Hz. unfold static_cast. simpl. apply Z.mod_small. lia. Qed.

Section integral_range.
(** An integral type of at most 64 bits. *)
Context (V : int_type) (Hw : 0 < width V ≤ 64).

Lemma pow2_width : 0 < 2 ^ (width V - 1) ≤ 2 ^ 63.
Proof.
  split; [apply Z.pow_pos_nonneg; lia | apply Z.pow_le_mono_r; lia].
Qed.

Lemma pow2_width_double : 2 ^ width V = 2 * 2 ^ (width V - 1).
Proof. rewrite <- Z.pow_succ_r by lia. f_equal. lia. Qed.

Lemma numeric_limits_bounds :
  - 2 ^ 63 ≤ numeric_limits_min V ≤ 0
  ∧ 0 ≤ numeric_limits_max V < 2 ^ width V
  ∧ numeric_limits_max V < 2 * 2 ^ 63.
Proof.
  pose proof pow2_width. pose proof pow2_width_double.
  unfold numeric_limits_min, numeric_limits_max.
  destruct (is_signed V); lia.
Qed.

Lemma static_cast_in_range (z : Z) :
  numeric_limits_min V ≤ z ≤ numeric_limits_max V → static_cast V z = z.
Proof.
  pose proof pow2_width. pose proof pow2_width_double.
  unfold numeric_limits_min, numeric_limits_max, static_cast.
  destruct (is_signed V); intros Hz.
  - rewrite Z.mod_small by lia. lia.
  - apply Z.mod_small. lia.
Qed.

(** The overload for [std::int64_t] decides membership in the range of
    [V]. *)
Lemma integral_in_range_int64_spec (v : Z) :
  - 2 ^ 63 ≤ v < 2 ^ 63 →
  integral_in_range_int64 V v
  = bool_decide (numeric_limits_min V ≤ v ≤ numeric_limits_max V).
Proof.
  intros Hv. pose proof pow2_width. pose proof pow2_width_double.
  unfold integral_in_range_int64, numeric_limits_min, numeric_limits_max.
  destruct (is_signed V).
  - rewrite !static_cast_int64_id by lia.
    repeat case_bool_decide; simpl; try reflexivity; lia.
  - destruct (decide (0 ≤ v)) as [Hv0|Hv0].
    + rewrite !static_cast_uint64_id by lia.
      repeat case_bool_decide; simpl; try reflexivity; lia.
    + rewrite (bool_decide_eq_false_2 (0 ≤ v)) by done. simpl.
      symmetry. apply bool_decide_eq_false_2. lia.
Qed.

(** The overload for [std::uint64_t] does the same. *)
Lemma integral_in_range_uint64_spec (v : Z) :
  0 ≤ v < 2 * 2 ^ 63 →
  integral_in_range_uint64 V v
  = bool_decide (numeric_limits_min V ≤ v ≤ numeric_limits_max V).
Proof.
  intros Hv. destruct numeric_limits_bounds as (Hmin & Hmax & Hmax').
  unfold integral_in_range_uint64.
  assert (static_cast (make_unsigned V) (numeric_limits_max V)
          = numeric_limits_max V) as ->.
  { unfold static_cast, make_unsigned. simpl. apply Z.mod_small. lia. }
  rewrite static_cast_uint64_id by lia.
  repeat case_bool_decide; try reflexivity; lia.
Qed.

(** What the handler does with a number an [on_int64] event can carry. *)
Lemma integral_handler_on_int64 (v : Z) (sv : string) (h : handler)
    (value_ : value) :
  - 2 ^ 63 ≤ v < 2 ^ 63 →
  converting_handler (integral V) (on_int64 v sv) h value_
  = if bool_decide (numeric_limits_min V ≤ v ≤ numeric_limits_max V)
    then (h, VInt v, Success (Some signal_value))
    else (h, value_, Failure not_exact).
Proof.
  intros Hv. simpl. rewrite integral_in_range_int64_spec by done.
  case_bool_decide; [|done]. by rewrite static_cast_in_range.
Qed.

(** What it does with a number an [on_uint64] event can carry. *)
Lemma integral_handler_on_uint64 (v : Z) (sv : string) (h : handler)
    (value_ : value) :
  0 ≤ v < 2 * 2 ^ 63 →
  converting_handler (integral V) (on_uint64 v sv) h value_
  = if bool_decide (numeric_limits_min V ≤ v ≤ numeric_limits_max V)
    then (h, VInt v, Success (Some signal_value))
    else (h, value_, Failure not_exact).
Proof.
  intros Hv. simpl. rewrite integral_in_range_uint64_spec by done.
  case_bool_decide; [|done]. by rewrite static_cast_in_range.
Qed.
End integral_range.

(** C5.  For every integral target type [V], signed or unsigned, of a width
    up to 64 bits, and every integer [v] that an [on_int64] or an [on_uint64]
    event can carry, the integral handler stores [v] in the target, calls
    [signal_value] and succeeds exactly when [v] lies between the minimum and
    the maximum of [V], and fails with [not_exact], leaving the target alone,
    otherwise.  In particular it succeeds at the minimum and at the maximum
    of [V], and fails with [not_exact] one below the minimum and one above
    the maximum whenever an event can carry that number. *)
Theorem integral_handler_range_exact
    (V : int_type) (sv : string) (h : handler) (value_ : value) :
  0 < width V ≤ 64 →
  (∀ v, numeric_limits_min int64_t ≤ v ≤ numeric_limits_max int64_t →
     converting_handler (integral V) (on_int64 v sv) h value_
     = if bool_decide (numeric_limits_min V ≤ v ≤ numeric_limits_max V)
       then (h, VInt v, Success (Some signal_value))
       else (h, value_, Failure not_exact))
  ∧ (∀ v, numeric_limits_min uint64_t ≤ v ≤ numeric_limits_max uint64_t →
     converting_handler (integral V) (on_uint64 v sv) h value_
     = if bool_decide (numeric_limits_min V ≤ v ≤ numeric_limits_max V)
       then (h, VInt v, Success (Some signal_value))
       else (h, value_, Failure not_exact))
  ∧ converting_handler (integral V) (on_int64 (numeric_limits_min V) sv) h value_
    = (h, VInt (numeric_limits_min V), Success (Some signal_value))
  ∧ converting_handler (integral V) (on_uint64 (numeric_limits_max V) sv) h value_
    = (h, VInt (numeric_limits_max V), Success (Some signal_value))
  ∧ (numeric_limits_min int64_t ≤ numeric_limits_min V - 1 →
     converting_handler (integral V)
       (on_int64 (numeric_limits_min V - 1) sv) h value_
     = (h, value_, Failure not_exact))
  ∧ (numeric_limits_max V + 1 ≤ numeric_limits_max int64_t →
     converting_handler (integral V)
       (on_int64 (numeric_limits_max V + 1) sv) h value_
     = (h, value_, Failure not_exact))
  ∧ (numeric_limits_max V + 1 ≤ numeric_limits_max uint64_t →
     converting_handler (integral V)
       (on_uint64 (numeric_limits_max V + 1) sv) h value_
     = (h, value_, Failure not_exact)).
Proof.
  intros Hw.
  destruct (numeric_limits_bounds V Hw) as (Hmin & Hmax & Hmax').
  pose proof (pow2_width V Hw) as Hp.
  pose proof (λ v, integral_handler_on_int64 V Hw v sv h value_) as Hint.
  pose proof (λ v, integral_handler_on_uint64 V Hw v sv h value_) as Huint.
  change (numeric_limits_min int64_t) with (- 2 ^ 63).
  change (numeric_limits_max int64_t) with (2 ^ 63 - 1).
  change (numeric_limits_min uint64_t) with 0.
  change (numeric_limits_max uint64_t) with (2 * 2 ^ 63 - 1).
  repeat split.
  - intros v Hv. apply Hint. lia.
  - intros v Hv. apply Huint. lia.
  - rewrite Hint by lia. rewrite bool_decide_eq_true_2 by lia. done.
  - rewrite Huint by lia. rewrite bool_decide_eq_true_2 by lia. done.
  - intros Hd. rewrite Hint by lia. rewrite bool_decide_eq_false_2 by lia. done.
  - intros Hd. rewrite Hint by lia. rewrite bool_decide_eq_false_2 by lia. done.
  - intros Hd. rewrite Huint by lia. rewrite bool_decide_eq_false_2 by lia. done.
Qed.

Lemma integral_handler_range_exact_witness :
  0 < width int8_t ≤ 64
  ∧ 0 < width uint8_t ≤ 64
  ∧ converting_handler (integral int8_t) (on_int64 (-128) "-128")
      scalar_members (VInt 0)
    = (scalar_members, VInt (-128), Success (Some signal_value))
  ∧ converting_handler (integral int8_t) (on_uint64 127 "127")
      scalar_members (VInt 0)
    = (scalar_members, VInt 127, Success (Some signal_value))
  ∧ converting_handler (integral int8_t) (on_int64 (-129) "-129")
      scalar_members (VInt 0)
    = (scalar_members, VInt 0, Failure not_exact)
  ∧ converting_handler (integral int8_t) (on_int64 128 "128")
      scalar_members (VInt 0)
    = (scalar_members, VInt 0, Failure not_exact)
  ∧ converting_handler (integral int8_t) (on_uint64 128 "128")
      scalar_members (VInt 0)
    = (scalar_members, VInt 0, Failure not_exact)
  ∧ converting_handler (integral uint8_t) (on_uint64 255 "255")
      scalar_members (VInt 0)
    = (scalar_members, VInt 255, Success (Some signal_value))
  ∧ converting_handler (integral uint8_t) (on_int64 (-1) "-1")
      scalar_members (VInt 0)
    = (scalar_members, VInt 0, Failure not_exact)
  ∧ converting_handler (integral uint8_t) (on_uint64 256 "256")
      scalar_members (VInt 0)
    = (scalar_members, VInt 0, Failure not_exact).
Proof.
  assert (0 < width int8_t ≤ 64) as Hw by (simpl; lia).
  assert (0 < width uint8_t ≤ 64) as Hu by (simpl; lia).
  destruct (integral_handler_range_exact int8_t "-128" scalar_members (VInt 0) Hw)
    as (_ & _ & Hmin & _).
  destruct (integral_handler_range_exact int8_t "127" scalar_members (VInt 0) Hw)
    as (_ & _ & _ & Hmax & _).
  destruct (integral_handler_range_exact int8_t "-129" scalar_members (VInt 0) Hw)
    as (_ & _ & _ & _ & Hlo & _).
  destruct (integral_handler_range_exact int8_t "128" scalar_members (VInt 0) Hw)
    as (_ & _ & _ & _ & _ & Hhi & Hhi').
  destruct (integral_handler_range_exact uint8_t "255" scalar_members (VInt 0) Hu)
    as (_ & _ & _ & Umax & _).
  destruct (integral_handler_range_exact uint8_t "-1" scalar_members (VInt 0) Hu)
    as (_ & _ & _ & _ & Ulo & _).
  destruct (integral_handler_range_exact uint8_t "256" scalar_members (VInt 0) Hu)
    as (_ & _ & _ & _ & _ & _ & Uhi).
  split; [exact Hw|]. split; [exact Hu|].
  split; [exact Hmin|]. split; [exact Hmax|].
  split; [apply Hlo; limits|].
  split; [apply Hhi; limits|].
  split; [apply Hhi'; limits|].
  split; [exact Umax|].
  split; [apply Ulo; limits|].
  apply Uhi; limits.
Defined.

(** ** Sequences *)

(** A handler that has not been given anything answers [on_array_end] by
    calling [signal_end] on its parent, whatever its type. *)
Lemma on_array_end_unopened (T : ty) (n : N) :
  converting_handler T (on_array_end n) (make_handler T) (default_value T)
  = (make_handler T, default_value T, Success (Some signal_end)).
Proof. destruct T; reflexivity. Qed.

(** An integer event in range, given to a sequence of integers whose own
    bracket is open, appends that integer. *)
Lemma sequence_handler_on_int64 (V : int_type) (v : Z) (sv : string)
    (l : list value) :
  0 < width V ≤ 64 →
  numeric_limits_min int64_t ≤ v ≤ numeric_limits_max int64_t →
  numeric_limits_min V ≤ v ≤ numeric_limits_max V →
  converting_handler (sequence (integral V)) (on_int64 v sv)
    (sequence_members (VInt 0) scalar_members true) (VSeq l)
  = (sequence_members (VInt 0) scalar_members true, VSeq (l ++ [VInt v]),
     Success None).
Proof.
  intros Hw Hv HV.
  pose proof (integral_handler_on_int64 V Hw v sv scalar_members (VInt 0))
    as Hint.
  rewrite bool_decide_eq_true_2 in Hint by done.
  cbn [converting_handler sequence_handler] in Hint |- *.
  rewrite Hint; [reflexivity|]. revert Hv. limits_unfold.
Qed.

Lemma feed_sequence_on_int64 (V : int_type) (xs : list (Z * string))
    (rest : list event) (l : list value) (signals : list signal) :
  0 < width V ≤ 64 →
  Forall (λ x, numeric_limits_min int64_t ≤ x.1 ≤ numeric_limits_max int64_t
               ∧ numeric_limits_min V ≤ x.1 ≤ numeric_limits_max V) xs →
  feed (converting_handler (sequence (integral V)))
    (map (λ x, on_int64 x.1 x.2) xs ++ rest)
    (sequence_members (VInt 0) scalar_members true) (VSeq l) signals
  = feed (converting_handler (sequence (integral V))) rest
      (sequence_members (VInt 0) scalar_members true)
      (VSeq (l ++ map (λ x, VInt x.1) xs)) signals.
Proof.
  intros Hw Hxs. revert l. induction Hxs as [|[v sv] xs [Hv HV] _ IH]; intros l.
  - simpl. by rewrite app_nil_r.
  - cbn [map app feed fst snd].
    rewrite sequence_handler_on_int64 by done.
    cbn [option_list]. rewrite app_nil_r, IH, <- app_assoc. reflexivity.
Qed.

(** C8.  A sequence handler for an ordered sequence of integers of type [V]
    that is fed [on_array_begin], then one [on_int64] event for each number
    of a list, each number being in the range of [V], then [on_array_end],
    succeeds, has appended exactly those numbers to the target in the order
    of the stream, equal numbers included, and has called [signal_value] on
    its parent once. *)
Theorem sequence_handler_stream_order
    (V : int_type) (xs : list (Z * string)) (l : list value) (n : N) :
  0 < width V ≤ 64 →
  Forall (λ x, numeric_limits_min int64_t ≤ x.1 ≤ numeric_limits_max int64_t
               ∧ numeric_limits_min V ≤ x.1 ≤ numeric_limits_max V) xs →
  feed (converting_handler (sequence (integral V)))
    (on_array_begin :: map (λ x, on_int64 x.1 x.2) xs ++ [on_array_end n])
    (make_handler (sequence (integral V))) (VSeq l) []
  = Run (make_handler (sequence (integral V)))
      (VSeq (l ++ map (λ x, VInt x.1) xs)) [signal_value] None.
Proof.
  intros Hw Hxs. cbn [feed]. cbn.
  change (sequence_handler (integral V) (integral_handler V))
    with (converting_handler (sequence (integral V))).
  rewrite feed_sequence_on_int64 by done. reflexivity.
Qed.

Lemma sequence_handler_stream_order_witness :
  0 < width int32_t ≤ 64
  ∧ Forall (λ x : Z * string,
              numeric_limits_min int64_t ≤ x.1 ≤ numeric_limits_max int64_t
              ∧ numeric_limits_min int32_t ≤ x.1 ≤ numeric_limits_max int32_t)
      [(1, "1"); (2, "2"); (3, "3")]
  ∧ feed (converting_handler (sequence (integral int32_t)))
      [on_array_begin; on_int64 1 "1"; on_int64 2 "2"; on_int64 3 "3";
       on_array_end 3]
      (make_handler (sequence (integral int32_t))) (VSeq []) []
    = Run (make_handler (sequence (integral int32_t)))
        (VSeq [VInt 1; VInt 2; VInt 3]) [signal_value] None.
Proof.
  assert (0 < width int32_t ≤ 64) as Hw by (simpl; lia).
  assert (Forall (λ x : Z * string,
              numeric_limits_min int64_t ≤ x.1 ≤ numeric_limits_max int64_t
              ∧ numeric_limits_min int32_t ≤ x.1 ≤ numeric_limits_max int32_t)
      [(1, "1"); (2, "2"); (3, "3")]) as Hxs.
  { repeat constructor; limits. }
  split; [exact Hw|]. split; [exact Hxs|].
  exact (sequence_handler_stream_order int32_t
           [(1, "1"); (2, "2"); (3, "3")] [] 3 Hw Hxs).
Defined.

(** C10.  A sequence handler of any element type that is fed
    [on_array_begin] and then at once [on_array_end] succeeds on both, calls
    [signal_value] on its parent exactly once and calls nothing else,
    appends nothing, and leaves the target as it was, so that an empty
    target stays empty; the handler is then as constructed. *)
Theorem sequence_handler_empty_array (T : ty) (l : list value) (n : N) :
  feed (converting_handler (sequence T)) [on_array_begin; on_array_end n]
    (make_handler (sequence T)) (VSeq l) []
  = Run (make_handler (sequence T)) (VSeq l) [signal_value] None
  ∧ run_target
      (feed (converting_handler (sequence T)) [on_array_begin; on_array_end n]
         (make_handler (sequence T)) (VSeq []) [])
    = VSeq [].
Proof.
  assert (∀ l, feed (converting_handler (sequence T))
                 [on_array_begin; on_array_end n]
                 (make_handler (sequence T)) (VSeq l) []
               = Run (make_handler (sequence T)) (VSeq l) [signal_value] None)
    as H.
  { intros l'. cbn [feed converting_handler make_handler sequence_handler].
    rewrite on_array_end_unopened. reflexivity. }
  split; [apply H|]. rewrite H. reflexivity.
Qed.

(** ** Maps *)

Lemma emplace_absent (key : string) (x : value) (m : gmap string value) :
  m !! key = None → emplace key x m = <[key := x]> m.
Proof. intros H. unfold emplace. by rewrite H. Qed.

Lemma emplace_present (key : string) (x : value) (m : gmap string value) :
  is_Some (m !! key) → emplace key x m = m.
Proof. intros [y H]. unfold emplace. by rewrite H. Qed.

(** An integer event in range, given to a map of integers that has a
    complete key, ends the entry: the pair is emplaced and the key, the
    staged value and [inner_active_] are reset. *)
Lemma map_like_handler_on_int64 (V : int_type) (v : Z) (sv key_ : string)
    (m : gmap string value) :
  0 < width V ≤ 64 →
  numeric_limits_min int64_t ≤ v ≤ numeric_limits_max int64_t →
  numeric_limits_min V ≤ v ≤ numeric_limits_max V →
  converting_handler (map_like (integral V)) (on_int64 v sv)
    (map_members key_ (VInt 0) scalar_members true) (VMap m)
  = (map_members "" (VInt 0) scalar_members false,
     VMap (emplace key_ (VInt v) m), Success None).
Proof.
  intros Hw Hv HV.
  pose proof (integral_handler_on_int64 V Hw v sv scalar_members (VInt 0))
    as Hint.
  rewrite bool_decide_eq_true_2 in Hint by done.
  cbn [converting_handler map_like_handler] in Hint |- *.
  rewrite Hint; [reflexivity|]. revert Hv. limits_unfold.
Qed.

(** C1, as the code has it.  A map handler for a map from strings to
    integers of type [V], on an empty target, that is fed [on_object_begin],
    [on_key k], an integer [x1], [on_key k] again, an integer [x2] and
    [on_object_end], succeeds and leaves the target with the single entry
    [k ↦ x1]: the first occurrence of a repeated key stays and the later one
    is dropped, as [emplace] does. *)
Theorem map_like_handler_repeated_key_first_wins
    (V : int_type) (k sv1 sv2 : string) (x1 x2 : Z) (n1 n2 n : N) :
  0 < width V ≤ 64 →
  numeric_limits_min int64_t ≤ x1 ≤ numeric_limits_max int64_t →
  numeric_limits_min V ≤ x1 ≤ numeric_limits_max V →
  numeric_limits_min int64_t ≤ x2 ≤ numeric_limits_max int64_t →
  numeric_limits_min V ≤ x2 ≤ numeric_limits_max V →
  feed (converting_handler (map_like (integral V)))
    [on_object_begin; on_key k n1; on_int64 x1 sv1;
     on_key k n2; on_int64 x2 sv2; on_object_end n]
    (make_handler (map_like (integral V))) (VMap ∅) []
  = Run (make_handler (map_like (integral V))) (VMap {[ k := VInt x1 ]})
      [signal_value] None.
Proof.
  intros Hw Hx1 HV1 Hx2 HV2.
  pose proof (map_like_handler_on_int64 V x1 sv1 k ∅ Hw Hx1 HV1) as E1.
  pose proof (map_like_handler_on_int64 V x2 sv2 k
                (emplace k (VInt x1) ∅) Hw Hx2 HV2) as E2.
  rewrite emplace_absent in E1, E2 by apply lookup_empty.
  rewrite emplace_present in E2 by (rewrite lookup_insert_eq; eauto).
  rewrite insert_empty in E1, E2.
  cbn [feed]. 
  change (converting_handler (map_like (integral V)) on_object_begin
            (make_handler (map_like (integral V))) (VMap ∅))
    with (make_handler (map_like (integral V)), VMap ∅, Success None).
  cbn iota beta.
  change (converting_handler (map_like (integral V)) (on_key k n1)
            (make_handler (map_like (integral V))) (VMap ∅))
    with (map_members k (VInt 0) scalar_members true, VMap ∅, Success None).
  cbn iota beta. rewrite E1. cbn iota beta.
  change (converting_handler (map_like (integral V)) (on_key k n2)
            (map_members "" (VInt 0) scalar_members false)
            (VMap {[ k := VInt x1 ]}))
    with (map_members k (VInt 0) scalar_members true,
          VMap {[ k := VInt x1 ]}, Success None).
  cbn iota beta. rewrite E2. reflexivity.
Qed.

Lemma map_like_handler_repeated_key_first_wins_witness :
  0 < width int32_t ≤ 64
  ∧ (numeric_limits_min int64_t ≤ 1 ≤ numeric_limits_max int64_t)
  ∧ (numeric_limits_min int32_t ≤ 1 ≤ numeric_limits_max int32_t)
  ∧ (numeric_limits_min int64_t ≤ 2 ≤ numeric_limits_max int64_t)
  ∧ (numeric_limits_min int32_t ≤ 2 ≤ numeric_limits_max int32_t)
  ∧ feed (converting_handler (map_like (integral int32_t)))
      [on_object_begin; on_key "a" 1; on_int64 1 "1";
       on_key "a" 1; on_int64 2 "2"; on_object_end 2]
      (make_handler (map_like (integral int32_t))) (VMap ∅) []
    = Run (make_handler (map_like (integral int32_t)))
        (VMap {[ "a" := VInt 1 ]}) [signal_value] None.
Proof.
  assert (0 < width int32_t ≤ 64) as Hw by (simpl; lia).
  assert (numeric_limits_min int64_t ≤ 1 ≤ numeric_limits_max int64_t) as A1
    by limits.
  assert (numeric_limits_min int32_t ≤ 1 ≤ numeric_limits_max int32_t) as B1
    by limits.
  assert (numeric_limits_min int64_t ≤ 2 ≤ numeric_limits_max int64_t) as A2
    by limits.
  assert (numeric_limits_min int32_t ≤ 2 ≤ numeric_limits_max int32_t) as B2
    by limits.
  split; [exact Hw|]. split; [exact A1|]. split; [exact B1|].
  split; [exact A2|]. split; [exact B2|].
  exact (map_like_handler_repeated_key_first_wins int32_t "a" "1" "2" 1 2
           1 1 2 Hw A1 B1 A2 B2).
Defined.

(** C1 as the specification states it fails: the run on the key ["a"] with
    the integers 1 and 2 does not leave the map [{"a": 2}]. *)
Lemma map_like_handler_last_write_counterexample :
  run_target
    (feed (converting_handler (map_like (integral int32_t)))
       [on_object_begin; on_key "a" 1; on_int64 1 "1";
        on_key "a" 1; on_int64 2 "2"; on_object_end 2]
       (make_handler (map_like (integral int32_t))) (VMap ∅) [])
  ≠ VMap {[ "a" := VInt 2 ]}.
Proof.
  intros H.
  apply (f_equal (λ v, match v with VMap m => m !! "a" | _ => None end)) in H.
  vm_compute in H. discriminate H.
Qed.

(** ** Tuples *)

(** C2.  In the tuple handler of arity [N] whose index has reached [N], the
    events that go through [BOOST_JSON_INVOKE_INNER] fail with
    [size_mismatch] and change nothing, and [on_array_end] completes the
    tuple; [on_array_begin], however, does not fail: it returns [true] and
    sets the index back to 0.  So a tuple of two integers that was given two
    integers accepts a further [on_array_begin]. *)
Theorem tuple_handler_index_at_arity
    (Ts : list ty) (e : event) (handlers_ : list handler) (elems : list value) :
  converting_handler (tuple Ts) e
    (tuple_members handlers_ (Z.of_nat (length Ts))) (VTuple elems)
  = match e with
    | on_array_begin =>
        (tuple_members handlers_ 0, VTuple elems, Success None)
    | on_array_end _ =>
        (tuple_members handlers_ (-1), VTuple elems,
         Success (Some signal_value))
    | _ =>
        (tuple_members handlers_ (Z.of_nat (length Ts)), VTuple elems,
         Failure size_mismatch)
    end
  ∧ feed (converting_handler (tuple [integral int32_t; integral int32_t]))
      [on_array_begin; on_int64 1 "1"; on_int64 2 "2"; on_array_begin]
      (make_handler (tuple [integral int32_t; integral int32_t]))
      (default_value (tuple [integral int32_t; integral int32_t])) []
    = Run (tuple_members [scalar_members; scalar_members] 0)
        (VTuple [VInt 1; VInt 2]) [] None.
Proof.
  split; [|vm_compute; reflexivity].
  cbn [converting_handler]. unfold tuple_handler.
  rewrite length_map.
  rewrite (bool_decide_eq_false_2 (Z.of_nat (length Ts) < 0)) by lia.
  rewrite (bool_decide_eq_true_2 (Z.of_nat (length Ts) >= Z.of_nat (length Ts)))
    by lia.
  destruct e; reflexivity.
Qed.

(** ** Enums in a sequence *)

(** C3.  In a sequence of a described enum, the enum handler's [name_] still
    holds the first name when the second string arrives: after
    [on_array_begin] and [on_string n1] with [n1] a declared name, the event
    [on_string n2] is looked up as [n1] followed by [n2].  When that
    concatenation is not itself a declared name the event fails with
    [unknown_name], also when [n2] is declared, and the sequence holds the
    first element only. *)
Theorem sequence_of_enum_name_not_reset
    (De : list (string * Z)) (n1 n2 : string) (k1 k2 k : N) (x1 : Z)
    (l : list value) :
  enum_from_string De (data n1) = Some x1 →
  enum_from_string De (data (n1 +:+ n2)) = None →
  feed (converting_handler (sequence (described_enum De)))
    [on_array_begin; on_string n1 k1; on_string n2 k2; on_array_end k]
    (make_handler (sequence (described_enum De))) (VSeq l) []
  = Run (sequence_members (VEnum 0) (enum_members (n1 +:+ n2)) true)
      (VSeq (l ++ [VEnum x1])) [] (Some (Failure unknown_name)).
Proof.
  intros H1 H2.
  cbn [feed converting_handler make_handler sequence_handler
       described_enum_handler default_value].
  change ("" +:+ n1) with n1. rewrite H1. cbn.
  rewrite H2. reflexivity.
Qed.

Lemma sequence_of_enum_name_not_reset_witness :
  enum_from_string [("a", 0); ("b", 1)] (data "a") = Some 0
  ∧ enum_from_string [("a", 0); ("b", 1)] (data "b") = Some 1
  ∧ enum_from_string [("a", 0); ("b", 1)] (data ("a" +:+ "b")) = None
  ∧ feed (converting_handler (sequence (described_enum [("a", 0); ("b", 1)])))
      [on_array_begin; on_string "a" 1; on_string "b" 1; on_array_end 2]
      (make_handler (sequence (described_enum [("a", 0); ("b", 1)])))
      (VSeq []) []
    = Run (sequence_members (VEnum 0) (enum_members "ab") true)
        (VSeq [VEnum 0]) [] (Some (Failure unknown_name)).
Proof.
  split; [reflexivity|]. split; [reflexivity|]. split; [reflexivity|].
  exact (sequence_of_enum_name_not_reset [("a", 0); ("b", 1)] "a" "b" 1 1 2 0
           [] eq_refl eq_refl).
Defined.

(** ** The top handler *)

(** C4, as the code has it.  [on_document_end] clears [inner_active_].  In
    that state each of the fourteen forwarded events fails with [extra_data]
    and changes nothing, while [on_document_begin] and a further
    [on_document_end] return [true] and leave the target alone.
    [on_comment_part] and [on_comment] return [true] in every state, before
    and after the end of the document, and change neither the handlers nor
    the target. *)
Theorem into_handler_after_document_end
    (t : ty) (h : into_members) (v : value) :
  into_handler t on_document_end h v
  = (IntoMembers (into_inner_ h) false, v, Success None)
  ∧ (∀ e, into_handler t (forwarded e) (IntoMembers (into_inner_ h) false) v
          = (IntoMembers (into_inner_ h) false, v, Failure extra_data))
  ∧ (∃ h', into_handler t on_document_begin
             (IntoMembers (into_inner_ h) false) v
           = (h', v, Success None))
  ∧ into_handler t on_document_end (IntoMembers (into_inner_ h) false) v
    = (IntoMembers (into_inner_ h) false, v, Success None)
  ∧ (∀ sv, into_handler t (on_comment_part sv) h v = (h, v, Success None))
  ∧ (∀ sv, into_handler t (on_comment sv) h v = (h, v, Success None)).
Proof.
  split; [reflexivity|]. split; [reflexivity|].
  split; [eexists; reflexivity|]. repeat split.
Qed.

(** C4 as the specification states it fails: after a complete document,
    [on_document_begin] is an event that is not a comment and does not fail
    with [extra_data]. *)
Lemma into_handler_document_begin_counterexample :
  (parse (integral int32_t)
     [on_document_begin; forwarded (on_int64 1 "1"); on_document_end;
      on_document_begin]
     (make_into_handler (integral int32_t)) (VInt 0)).2
  ≠ Some (Failure extra_data).
Proof. vm_compute. discriminate. Qed.

(** ** Described classes *)

Lemma for_each_member_foldl (names : list string) (key_ : string)
    (inner_active_ i : Z) :
  (foldl
     (λ '(inner_active_, i) name,
        (if String.eqb key_ name then i else inner_active_, i + 1))
     (inner_active_, i) names).2
  = i + Z.of_nat (length names).
Proof.
  revert inner_active_ i. induction names as [|name names IH]; intros a i.
  - simpl. lia.
  - cbn [foldl length]. rewrite IH. lia.
Qed.

Lemma for_each_member_snoc (names : list string) (name key_ : string)
    (inner_active_ : Z) :
  for_each_member (names ++ [name]) key_ inner_active_
  = if String.eqb key_ name then Z.of_nat (length names)
    else for_each_member names key_ inner_active_.
Proof.
  unfold for_each_member. rewrite foldl_snoc.
  pose proof (for_each_member_foldl names key_ inner_active_ 0) as Hi.
  destruct (foldl _ _ names) as [a i]. simpl in Hi. subst i.
  destruct (String.eqb key_ name); reflexivity.
Qed.

(** The loop leaves [inner_active_] alone when no name is the key. *)
Lemma for_each_member_no_match (names : list string) (key_ : string)
    (inner_active_ : Z) :
  key_ ∉ names → for_each_member names key_ inner_active_ = inner_active_.
Proof.
  induction names as [|name names IH] using rev_ind; intros Hnot.
  - reflexivity.
  - rewrite for_each_member_snoc.
    destruct (String.eqb_spec key_ name) as [->|_].
    + exfalso. apply Hnot. set_solver.
    + apply IH. set_solver.
Qed.

(** The loop ends with the index of the last name that is the key. *)
Lemma for_each_member_last_match (names : list string) (key_ : string)
    (inner_active_ : Z) (i : nat) :
  names !! i = Some key_ →
  (∀ j, (i < j)%nat → names !! j ≠ Some key_) →
  for_each_member names key_ inner_active_ = Z.of_nat i.
Proof.
  revert i. induction names as [|name names IH] using rev_ind;
    intros i Hi Hlast.
  - done.
  - rewrite for_each_member_snoc.
    destruct (String.eqb_spec key_ name) as [->|Hne].
    + destruct (decide (i = length names)) as [->|Hi']; [done|].
      exfalso. apply (Hlast (length names)).
      * pose proof (lookup_lt_Some _ _ _ Hi) as Hlen.
        rewrite length_app in Hlen. simpl in Hlen. lia.
      * by rewrite list_lookup_middle.
    + assert (i < length names)%nat as Hlt.
      { pose proof (lookup_lt_Some _ _ _ Hi) as Hlen.
        rewrite length_app in Hlen. simpl in Hlen.
        destruct (decide (i = length names)) as [->|]; [|lia].
        rewrite list_lookup_middle in Hi by done. congruence. }
      apply IH.
      * by rewrite lookup_app_l in Hi.
      * intros j Hj. destruct (decide (j < length names)%nat) as [Hjl|Hjl].
        -- specialize (Hlast j Hj). by rewrite lookup_app_l in Hlast.
        -- rewrite lookup_ge_None_2; [done|lia].
Qed.

(** C6, as the code has it.  When the described class handler receives
    [on_key] while no member is selected, the key text is what [key_] holds
    followed by the text of the event, and the member selected is the last
    declared one whose name is exactly that text: the loop goes on after a
    match, so a later member of the same name replaces an earlier one. *)
Theorem described_class_handler_on_key_last_match
    (Dm : list (string * ty)) (key_ sv : string) (n : N)
    (handlers_ : list handler) (inner_active_ : Z) (fields : list value)
    (i : nat) :
  inner_active_ < 0 →
  (map fst Dm) !! i = Some (key_ +:+ sv) →
  (∀ j, (i < j)%nat → (map fst Dm) !! j ≠ Some (key_ +:+ sv)) →
  converting_handler (described_class Dm) (on_key sv n)
    (class_members key_ handlers_ inner_active_) (VStruct fields)
  = (class_members (key_ +:+ sv) handlers_ (Z.of_nat i), VStruct fields,
     Success None).
Proof.
  intros Hneg Hi Hlast.
  cbn [converting_handler]. unfold described_class_handler.
  rewrite (bool_decide_eq_false_2 (inner_active_ >= 0)) by lia.
  rewrite (for_each_member_last_match _ _ _ i Hi Hlast).
  rewrite bool_decide_eq_false_2 by lia. reflexivity.
Qed.

Lemma described_class_handler_on_key_last_match_witness :
  (-1 < 0)
  ∧ (map fst [("x", integral int32_t); ("x", string_like)]) !! 1%nat
    = Some ("" +:+ "x")
  ∧ converting_handler
      (described_class [("x", integral int32_t); ("x", string_like)])
      (on_key "x" 1)
      (make_handler
         (described_class [("x", integral int32_t); ("x", string_like)]))
      (default_value
         (described_class [("x", integral int32_t); ("x", string_like)]))
    = (class_members "x" [scalar_members; scalar_members] 1,
       VStruct [VInt 0; VString ""], Success None).
Proof.
  split; [lia|]. split; [reflexivity|].
  apply (described_class_handler_on_key_last_match
           [("x", integral int32_t); ("x", string_like)] "" "x" 1
           [scalar_members; scalar_members] (-1) [VInt 0; VString ""] 1%nat).
  - lia.
  - reflexivity.
  - intros [|[|j]] Hj; [lia|lia|]. simpl. discriminate.
Defined.

(** C6 as the specification states it fails: with two members named ["x"],
    the key ["x"] does not select the first of them. *)
Lemma described_class_handler_first_match_counterexample :
  run_handler
    (feed
       (converting_handler
          (described_class [("x", integral int32_t); ("x", string_like)]))
       [on_object_begin; on_key "x" 1]
       (make_handler
          (described_class [("x", integral int32_t); ("x", string_like)]))
       (default_value
          (described_class [("x", integral int32_t); ("x", string_like)]))
       [])
  ≠ class_members "x" [scalar_members; scalar_members] 0.
Proof. vm_compute. discriminate. Qed.

(** C7.  When the described class handler receives [on_key] while no member
    is selected and the key text, which is what [key_] holds followed by the
    text of the event, is the name of no described member, the event fails
    with [unknown_name]; the target and the member handlers are as before,
    so no field is changed. *)
Theorem described_class_handler_unknown_key
    (Dm : list (string * ty)) (key_ sv : string) (n : N)
    (handlers_ : list handler) (inner_active_ : Z) (fields : list value) :
  inner_active_ < 0 →
  (key_ +:+ sv) ∉ map fst Dm →
  converting_handler (described_class Dm) (on_key sv n)
    (class_members key_ handlers_ inner_active_) (VStruct fields)
  = (class_members (key_ +:+ sv) handlers_ inner_active_, VStruct fields,
     Failure unknown_name).
Proof.
  intros Hneg Hnot.
  cbn [converting_handler]. unfold described_class_handler.
  rewrite (bool_decide_eq_false_2 (inner_active_ >= 0)) by lia.
  rewrite (for_each_member_no_match _ _ _ Hnot).
  rewrite bool_decide_eq_true_2 by lia. reflexivity.
Qed.

Lemma described_class_handler_unknown_key_witness :
  (-1 < 0)
  ∧ (("" +:+ "z") ∉ map fst [("x", integral int32_t); ("y", string_like)])
  ∧ feed
      (converting_handler
         (described_class [("x", integral int32_t); ("y", string_like)]))
      [on_object_begin; on_key "z" 1]
      (make_handler
         (described_class [("x", integral int32_t); ("y", string_like)]))
      (VStruct [VInt 7; VString "s"]) []
    = Run (class_members "z" [scalar_members; scalar_members] (-1))
        (VStruct [VInt 7; VString "s"]) [] (Some (Failure unknown_name)).
Proof.
  assert (("" +:+ "z") ∉ map fst [("x", integral int32_t); ("y", string_like)])
    as Hnot.
  { intros H. simpl in H. rewrite !elem_of_cons in H.
    destruct H as [H|[H|H]]; [discriminate H|discriminate H|].
    by apply elem_of_nil in H. }
  split; [lia|]. split; [exact Hnot|].
  cbn [feed].
  change (converting_handler
            (described_class [("x", integral int32_t); ("y", string_like)])
            on_object_begin
            (make_handler
               (described_class [("x", integral int32_t); ("y", string_like)]))
            (VStruct [VInt 7; VString "s"]))
    with (class_members "" [scalar_members; scalar_members] (-1),
          VStruct [VInt 7; VString "s"], Success None).
  cbn iota beta.
  rewrite (described_class_handler_unknown_key
             [("x", integral int32_t); ("y", string_like)] "" "z" 1
             [scalar_members; scalar_members] (-1) [VInt 7; VString "s"]
             ltac:(lia) Hnot).
  reflexivity.
Defined.

(** ** Optionals *)

(** An event other than [on_null] and [on_array_end] that the wrapped
    handler completes its value on makes the optional hold that value, and
    leaves the staged value as the move left it. *)
Lemma optional_handler_present (T : ty) (e : event)
    (inner_value_ x : value) (inner_ inner_' : handler) (inner_active_ : bool)
    (value_ : value) :
  e ≠ on_null →
  (∀ n, e ≠ on_array_end n) →
  converting_handler T e inner_ inner_value_
  = (inner_', x, Success (Some signal_value)) →
  converting_handler (optional T) e
    (optional_members inner_value_ inner_ inner_active_) value_
  = (optional_members (moved_from x) inner_' false, VOpt (Some x),
     Success (Some signal_value)).
Proof.
  intros Hnull Hend Hinner.
  cbn [converting_handler]. unfold optional_handler.
  rewrite Hinner. destruct e; try reflexivity.
  - by destruct (Hend n).
  - done.
Qed.

(** An event that the optional handler gives to the wrapped handler:
    [inner_active_] is set before the call, whatever it was, and cleared
    again only by the [signal_value] of the wrapped handler. *)
Lemma optional_handler_invoke_inner (T : ty) (e : event)
    (inner_value_ : value) (inner_ : handler) (inner_active_ : bool)
    (value_ : value) :
  inner_active_ = true ∨ (e ≠ on_null ∧ ∀ n, e ≠ on_array_end n) →
  converting_handler (optional T) e
    (optional_members inner_value_ inner_ inner_active_) value_
  = let '(inner_', x, o) := converting_handler T e inner_ inner_value_ in
    match o with
    | Success (Some signal_value) =>
        (optional_members (moved_from x) inner_' false, VOpt (Some x), o)
    | _ => (optional_members x inner_' true, value_, o)
    end.
Proof.
  intros Hfwd. cbn [converting_handler]. unfold optional_handler.
  assert (match e with
          | on_array_end _ | on_null => negb inner_active_ = false
          | _ => True
          end) as Hguard.
  { destruct Hfwd as [->|[Hnull Hend]]; destruct e; try done.
    by destruct (Hend n). }
  destruct (converting_handler T e inner_ inner_value_)
    as [[inner_' x] [[[]|]| |]];
    destruct e; try reflexivity; by rewrite Hguard.
Qed.

(** The optional handler of the elements of a sequence is used for every
    element: each string is read into the staged string that the move of
    the element before left empty. *)
Lemma optional_handler_reused :
  feed (converting_handler (sequence (optional string_like)))
    [on_array_begin; on_string "a" 1; on_null; on_string_part "b" 1;
     on_string "c" 1; on_array_end 3]
    (make_handler (sequence (optional string_like))) (VSeq []) []
  = Run (make_handler (sequence (optional string_like)))
      (VSeq [VOpt (Some (VString "a")); VOpt None;
             VOpt (Some (VString "bc"))])
      [signal_value] None.
Proof. reflexivity. Qed.

(** C9.  The optional handler, whatever the wrapped type [T] and whatever
    the staged value [inner_value_] and the wrapped handler [inner_]:
    - [on_null] while [inner_active_] is clear, as it is when the wrapped
      handler was never given anything, makes the target the empty optional,
      returns [true] and calls [signal_value] on the parent;
    - any event [e] other than [on_null] and [on_array_end] given while
      [inner_active_] is clear goes to the wrapped handler and sets
      [inner_active_], which stays set unless that handler completed its
      value on [e];
    - any event, [on_null] among them, given while [inner_active_] is set
      goes to the wrapped handler: the outcome is that handler's, its new
      state is kept, [inner_active_] stays set and the target is unchanged,
      unless that handler completed its value: then the target becomes the
      optional holding it and [inner_active_] is cleared;
    - so an [on_null] that follows an event [e] which the wrapped handler
      took without completing its value is given to the wrapped handler;
      [on_array_begin], [on_null], [on_array_end] given to the handler as
      constructed for an optional sequence of nulls make the target the
      optional holding the sequence of that one null;
    - a scalar event of the kind the wrapped type takes, given while
      [inner_active_] is clear, makes the target the optional holding that
      scalar, clears [inner_active_] again and calls [signal_value] on the
      parent: an integer in the range of [V] by [on_int64] or [on_uint64];
      for a floating-point type [F] the conversion to [F] of the number of
      [on_double], [on_int64] or [on_uint64]; a boolean; a whole string,
      the staged string being empty as it is when constructed and after a
      move; the enumerator whose name the string is, the name assembled so
      far being empty. *)
Theorem optional_handler_null_and_scalars
    (T : ty) (V : int_type) (F : floating_type) (De : list (string * Z))
    (inner_value_ : value) (inner_ : handler) (value_ : value)
    (e : event) (z k x : Z) (d : double) (b : bool) (sv : string) (n : N) :
  0 < width V ≤ 64 →
  numeric_limits_min V ≤ z ≤ numeric_limits_max V →
  converting_handler (optional T) on_null
    (optional_members inner_value_ inner_ false) value_
  = (optional_members inner_value_ inner_ false, VOpt None,
     Success (Some signal_value))
  ∧ (e ≠ on_null → (∀ m, e ≠ on_array_end m) →
     converting_handler (optional T) e
       (optional_members inner_value_ inner_ false) value_
     = let '(inner_', y, o) := converting_handler T e inner_ inner_value_ in
       match o with
       | Success (Some signal_value) =>
           (optional_members (moved_from y) inner_' false, VOpt (Some y), o)
       | _ => (optional_members y inner_' true, value_, o)
       end)
  ∧ converting_handler (optional T) e
      (optional_members inner_value_ inner_ true) value_
    = (let '(inner_', y, o) := converting_handler T e inner_ inner_value_ in
       match o with
       | Success (Some signal_value) =>
           (optional_members (moved_from y) inner_' false, VOpt (Some y), o)
       | _ => (optional_members y inner_' true, value_, o)
       end)
  ∧ (e ≠ on_null → (∀ m, e ≠ on_array_end m) →
     ∀ inner_1 y1,
       converting_handler T e inner_ inner_value_
       = (inner_1, y1, Success None) →
       feed (converting_handler (optional T)) [e; on_null]
         (optional_members inner_value_ inner_ false) value_ []
       = let '(inner_2, y2, o) := converting_handler T on_null inner_1 y1 in
         match o with
         | Success (Some signal_value) =>
             Run (optional_members (moved_from y2) inner_2 false)
               (VOpt (Some y2)) [signal_value] None
         | Success s =>
             Run (optional_members y2 inner_2 true) value_ (option_list s) None
         | _ => Run (optional_members y2 inner_2 true) value_ [] (Some o)
         end)
  ∧ feed (converting_handler (optional (sequence null_like)))
      [on_array_begin; on_null; on_array_end 1]
      (make_handler (optional (sequence null_like))) value_ []
    = Run (optional_members (VSeq [])
             (sequence_members VNull scalar_members false) false)
        (VOpt (Some (VSeq [VNull]))) [signal_value] None
  ∧ (numeric_limits_min int64_t ≤ z ≤ numeric_limits_max int64_t →
     converting_handler (optional (integral V)) (on_int64 z sv)
       (optional_members inner_value_ inner_ false) value_
     = (optional_members (VInt z) inner_ false, VOpt (Some (VInt z)),
        Success (Some signal_value)))
  ∧ (numeric_limits_min uint64_t ≤ z ≤ numeric_limits_max uint64_t →
     converting_handler (optional (integral V)) (on_uint64 z sv)
       (optional_members inner_value_ inner_ false) value_
     = (optional_members (VInt z) inner_ false, VOpt (Some (VInt z)),
        Success (Some signal_value)))
  ∧ converting_handler (optional (floating_point F)) (on_double d sv)
      (optional_members inner_value_ inner_ false) value_
    = (optional_members (VFloating (floating_of_double F d)) inner_ false,
       VOpt (Some (VFloating (floating_of_double F d))),
       Success (Some signal_value))
  ∧ converting_handler (optional (floating_point F)) (on_int64 k sv)
      (optional_members inner_value_ inner_ false) value_
    = (optional_members (VFloating (floating_of_int64 F k)) inner_ false,
       VOpt (Some (VFloating (floating_of_int64 F k))),
       Success (Some signal_value))
  ∧ converting_handler (optional (floating_point F)) (on_uint64 k sv)
      (optional_members inner_value_ inner_ false) value_
    = (optional_members (VFloating (floating_of_uint64 F k)) inner_ false,
       VOpt (Some (VFloating (floating_of_uint64 F k))),
       Success (Some signal_value))
  ∧ converting_handler (optional boolean) (on_bool b)
      (optional_members inner_value_ inner_ false) value_
    = (optional_members (VBool b) inner_ false, VOpt (Some (VBool b)),
       Success (Some signal_value))
  ∧ converting_handler (optional string_like) (on_string sv n)
      (optional_members (VString "") inner_ false) value_
    = (optional_members (VString "") inner_ false, VOpt (Some (VString sv)),
       Success (Some signal_value))
  ∧ (enum_from_string De (data sv) = Some x →
     converting_handler (optional (described_enum De)) (on_string sv n)
       (optional_members inner_value_ (enum_members "") false) value_
     = (optional_members (VEnum x) (enum_members sv) false,
        VOpt (Some (VEnum x)), Success (Some signal_value))).
Proof.
  intros Hw HV.
  pose proof (integral_handler_on_int64 V Hw z sv inner_ inner_value_)
    as Hint.
  pose proof (integral_handler_on_uint64 V Hw z sv inner_ inner_value_)
    as Huint.
  rewrite bool_decide_eq_true_2 in Hint, Huint by done.
  split; [reflexivity|]. split.
  { intros Hnull Hend. apply optional_handler_invoke_inner. by right. }
  split.
  { apply optional_handler_invoke_inner. by left. }
  split.
  { intros Hnull Hend inner_1 y1 He. cbn [feed].
    rewrite (optional_handler_invoke_inner T e) by (by right).
    rewrite He. cbn iota beta.
    rewrite (optional_handler_invoke_inner T on_null) by (by left).
    destruct (converting_handler T on_null inner_1 y1)
      as [[inner_2 y2] [[[]|]| |]]; reflexivity. }
  split; [reflexivity|].
  split.
  { intros Hz.
    rewrite (optional_handler_present (integral V) (on_int64 z sv)
               inner_value_ (VInt z) inner_ inner_ false value_);
      [reflexivity|done|done|].
    apply Hint. revert Hz. limits_unfold. }
  split.
  { intros Hz.
    rewrite (optional_handler_present (integral V) (on_uint64 z sv)
               inner_value_ (VInt z) inner_ inner_ false value_);
      [reflexivity|done|done|].
    apply Huint. revert Hz. limits_unfold. }
  split; [reflexivity|]. split; [reflexivity|]. split; [reflexivity|].
  split; [reflexivity|]. split; [reflexivity|].
  intros Hx.
  rewrite (optional_handler_present (described_enum De) (on_string sv n)
             inner_value_ (VEnum x) (enum_members "") (enum_members sv)
             false value_);
    [reflexivity|done|done|].
  cbn [converting_handler]. unfold described_enum_handler.
  change ("" +:+ sv) with sv. by rewrite Hx.
Qed.

Lemma optional_handler_null_and_scalars_witness :
  0 < width int32_t ≤ 64
  ∧ (numeric_limits_min int32_t ≤ 5 ≤ numeric_limits_max int32_t)
  ∧ (numeric_limits_min int64_t ≤ 5 ≤ numeric_limits_max int64_t)
  ∧ (numeric_limits_min uint64_t ≤ 5 ≤ numeric_limits_max uint64_t)
  ∧ enum_from_string [("red", 1); ("green", 2)] (data "green") = Some 2
  ∧ converting_handler (optional (integral int32_t)) on_null
      (make_handler (optional (integral int32_t))) (VOpt (Some (VInt 9)))
    = (make_handler (optional (integral int32_t)), VOpt None,
       Success (Some signal_value))
  ∧ converting_handler (optional (sequence null_like)) on_array_begin
      (make_handler (optional (sequence null_like))) (VOpt None)
    = (optional_members (VSeq [])
         (sequence_members VNull scalar_members true) true,
       VOpt None, Success None)
  ∧ converting_handler (optional (sequence null_like)) on_null
      (optional_members (VSeq [])
         (sequence_members VNull scalar_members true) true)
      (VOpt None)
    = (optional_members (VSeq [VNull])
         (sequence_members VNull scalar_members true) true,
       VOpt None, Success None)
  ∧ feed (converting_handler (optional (sequence null_like)))
      [on_array_begin; on_null]
      (make_handler (optional (sequence null_like))) (VOpt None) []
    = Run (optional_members (VSeq [VNull])
             (sequence_members VNull scalar_members true) true)
        (VOpt None) [] None
  ∧ feed (converting_handler (optional (sequence null_like)))
      [on_array_begin; on_null; on_array_end 1]
      (make_handler (optional (sequence null_like))) (VOpt None) []
    = Run (optional_members (VSeq [])
             (sequence_members VNull scalar_members false) false)
        (VOpt (Some (VSeq [VNull]))) [signal_value] None
  ∧ converting_handler (optional (integral int32_t)) (on_int64 5 "5")
      (make_handler (optional (integral int32_t))) (VOpt None)
    = (optional_members (VInt 5) scalar_members false,
       VOpt (Some (VInt 5)), Success (Some signal_value))
  ∧ converting_handler (optional (integral int32_t)) (on_uint64 5 "5")
      (optional_members (VInt 7) scalar_members false) (VOpt (Some (VInt 7)))
    = (optional_members (VInt 5) scalar_members false,
       VOpt (Some (VInt 5)), Success (Some signal_value))
  ∧ converting_handler (optional (floating_point float_t))
      (on_double (double_literal 0) "0.0")
      (make_handler (optional (floating_point float_t))) (VOpt None)
    = (optional_members
         (VFloating (floating_of_double float_t (double_literal 0)))
         scalar_members false,
       VOpt (Some (VFloating (floating_of_double float_t (double_literal 0)))),
       Success (Some signal_value))
  ∧ converting_handler (optional (described_enum [("red", 1); ("green", 2)]))
      (on_string "green" 5)
      (make_handler (optional (described_enum [("red", 1); ("green", 2)])))
      (VOpt None)
    = (optional_members (VEnum 2) (enum_members "green") false,
       VOpt (Some (VEnum 2)), Success (Some signal_value)).
Proof.
  assert (0 < width int32_t ≤ 64) as Hw by (simpl; lia).
  assert (numeric_limits_min int32_t ≤ 5 ≤ numeric_limits_max int32_t) as HV
    by limits.
  assert (numeric_limits_min int64_t ≤ 5 ≤ numeric_limits_max int64_t) as Hz
    by limits.
  assert (numeric_limits_min uint64_t ≤ 5 ≤ numeric_limits_max uint64_t)
    as Hu by limits.
  assert (enum_from_string [("red", 1); ("green", 2)] (data "green") = Some 2)
    as Hx by reflexivity.
  assert (on_array_begin ≠ on_null) as Hnull by discriminate.
  assert (∀ m, on_array_begin ≠ on_array_end m) as Hend by discriminate.
  destruct (optional_handler_null_and_scalars (integral int32_t) int32_t
              float_t [("red", 1); ("green", 2)]
              (VInt 0) scalar_members (VOpt (Some (VInt 9))) on_null 5 5 2
              (double_literal 0) true "5" 1 Hw HV) as (Ha & _).
  destruct (optional_handler_null_and_scalars (sequence null_like) int32_t
              float_t [("red", 1); ("green", 2)]
              (VSeq []) (sequence_members VNull scalar_members false)
              (VOpt None) on_array_begin 5 5 2
              (double_literal 0) true "5" 1 Hw HV)
    as (_ & Hb & _ & Hd & He & _).
  destruct (optional_handler_null_and_scalars (sequence null_like) int32_t
              float_t [("red", 1); ("green", 2)]
              (VSeq []) (sequence_members VNull scalar_members true)
              (VOpt None) on_null 5 5 2
              (double_literal 0) true "5" 1 Hw HV)
    as (_ & _ & Hc & _).
  destruct (optional_handler_null_and_scalars (integral int32_t) int32_t
              float_t [("red", 1); ("green", 2)]
              (VInt 0) scalar_members (VOpt None) on_null 5 5 2
              (double_literal 0) true "5" 1 Hw HV)
    as (_ & _ & _ & _ & _ & Hi & _).
  destruct (optional_handler_null_and_scalars (integral int32_t) int32_t
              float_t [("red", 1); ("green", 2)]
              (VInt 7) scalar_members (VOpt (Some (VInt 7))) on_null 5 5 2
              (double_literal 0) true "5" 1 Hw HV)
    as (_ & _ & _ & _ & _ & _ & Hj & _).
  destruct (optional_handler_null_and_scalars (integral int32_t) int32_t
              float_t [("red", 1); ("green", 2)]
              (VFloating (floating_of_int64 float_t 0)) scalar_members
              (VOpt None) on_null 5 5 2
              (double_literal 0) true "0.0" 1 Hw HV)
    as (_ & _ & _ & _ & _ & _ & _ & Hf & _).
  destruct (optional_handler_null_and_scalars (integral int32_t) int32_t
              float_t [("red", 1); ("green", 2)]
              (VEnum 0) scalar_members (VOpt None) on_null 5 5 2
              (double_literal 0) true "green" 5 Hw HV)
    as (_ & _ & _ & _ & _ & _ & _ & _ & _ & _ & _ & _ & Hg).
  split; [exact Hw|]. split; [exact HV|]. split; [exact Hz|].
  split; [exact Hu|]. split; [exact Hx|].
  split; [exact Ha|]. split; [exact (Hb Hnull Hend)|]. split; [exact Hc|].
  split; [exact (Hd Hnull Hend _ _ eq_refl)|]. split; [exact He|].
  split; [exact (Hi Hz)|]. split; [exact (Hj Hu)|]. split; [exact Hf|].
  exact (Hg Hx).
Defined.

(** * Further properties of the handlers *)

(** ** Induction over target types *)

(** Induction on [ty] that also gives the hypothesis for the element types
    of a tuple and the member types of a described class. *)
Lemma ty_nested_ind (P : ty → Prop) :
  (∀ V, P (integral V)) →
  (∀ F, P (floating_point F)) →
  P string_like → P boolean → P null_like →
  (∀ De, P (described_enum De)) →
  (∀ T, P T → P (sequence T)) →
  (∀ T, P T → P (map_like T)) →
  (∀ Ts, Forall P Ts → P (tuple Ts)) →
  (∀ Dm, Forall (λ D, P D.2) Dm → P (described_class Dm)) →
  (∀ T, P T → P (optional T)) →
  ∀ t, P t.
Proof.
  intros Hint Hfl Hstr Hbool Hnull Henum Hseq Hmap Htup Hcls Hopt.
  fix IH 1. intros [V|F| | | |De|T|T|Ts|Dm|T].
  - apply Hint.
  - apply Hfl.
  - apply Hstr.
  - apply Hbool.
  - apply Hnull.
  - apply Henum.
  - apply Hseq, IH.
  - apply Hmap, IH.
  - apply Htup. induction Ts as [|T Ts IHTs]; constructor; [apply IH|apply IHTs].
  - apply Hcls.
    induction Dm as [|[name T] Dm IHDm]; constructor; [apply IH|apply IHDm].
  - apply Hopt, IH.
Qed.

(** ** A failing event leaves the target alone *)

(** Unfolds the handler classes that are not recursive. *)
Ltac unfold_handler :=
  unfold integral_handler, floating_point_handler, string_like_handler,
    bool_handler, null_like_handler, described_enum_handler,
    scalar_handler, handler_error_base,
    sequence_handler, map_like_handler, tuple_handler,
    described_class_handler, optional_handler,
    sequence_signal_value, map_signal_value, composite_signal_end in *.

Lemma scalar_keeps_target (t : ty) :
  match t with
  | integral _ | floating_point _ | string_like | boolean | null_like
  | described_enum _ => keeps_target_on_failure (converting_handler t)
  | _ => True
  end.
Proof.
  destruct t; try done; intros e h v h' v' ec H; cbn [converting_handler] in H;
    unfold_handler; destruct e; repeat case_match; simplify_eq; done.
Qed.

Lemma sequence_keeps_target (T : ty) (inner : step) :
  keeps_target_on_failure (sequence_handler T inner).
Proof.
  intros e h v h' v' ec H. unfold_handler.
  destruct e; repeat case_match; simplify_eq; done.
Qed.

Lemma map_like_keeps_target (T : ty) (inner : step) :
  keeps_target_on_failure (map_like_handler T inner).
Proof.
  intros e h v h' v' ec H. unfold_handler.
  destruct e; repeat case_match; simplify_eq; done.
Qed.

Lemma optional_keeps_target (inner : step) :
  keeps_target_on_failure (optional_handler inner).
Proof.
  intros e h v h' v' ec H. unfold_handler.
  destruct e; repeat case_match; simplify_eq; done.
Qed.

Lemma tuple_keeps_target (inners : list step) :
  Forall keeps_target_on_failure inners →
  keeps_target_on_failure (tuple_handler inners).
Proof.
  intros IH e h v h' v' ec H. unfold_handler.
  destruct e; repeat case_match; simplify_eq; try done.
  all: match goal with
       | Hi : _ !! _ = Some ?f, E : ?f _ _ _ = (_, _, Failure _) |- _ =>
           rewrite (Forall_lookup_1 _ _ _ _ IH Hi _ _ _ _ _ _ E)
       end.
  all: by rewrite list_insert_id.
Qed.

Lemma described_class_keeps_target (names : list string) (inners : list step) :
  Forall keeps_target_on_failure inners →
  keeps_target_on_failure (described_class_handler names inners).
Proof.
  intros IH e h v h' v' ec H. unfold_handler.
  destruct e; repeat case_match; simplify_eq; try done.
  all: match goal with
       | Hi : _ !! _ = Some ?f, E : ?f _ _ _ = (_, _, Failure _) |- _ =>
           rewrite (Forall_lookup_1 _ _ _ _ IH Hi _ _ _ _ _ _ E)
       end.
  all: by rewrite list_insert_id.
Qed.

(** X1.  An event that fails, whatever the target type, the event and the
    state of the handler, leaves the target exactly as it was before the
    event: what a failed conversion has written was written by the events
    before the failing one. *)
Theorem failing_event_keeps_target
    (t : ty) (e : event) (h h' : handler) (v v' : value) (ec : error) :
  converting_handler t e h v = (h', v', Failure ec) → v' = v.
Proof.
  revert e h h' v v' ec.
  induction t as [ | | | | | | | |Ts IH|Dm IH| ] using ty_nested_ind;
    intros e h h' v v' ec Hev.
  1-6: match type of Hev with
       | converting_handler ?t _ _ _ = _ =>
           exact (scalar_keeps_target t e h v h' v' ec Hev)
       end.
  - by eapply sequence_keeps_target.
  - by eapply map_like_keeps_target.
  - eapply tuple_keeps_target; [|exact Hev].
    apply Forall_fmap. eapply Forall_impl; [exact IH|].
    intros T HT e0 h0 v0 h0' v0' ec0. apply HT.
  - eapply described_class_keeps_target; [|exact Hev].
    apply Forall_fmap. eapply Forall_impl; [exact IH|].
    intros D HD e0 h0 v0 h0' v0' ec0. apply HD.
  - by eapply optional_keeps_target.
Qed.

Lemma failing_event_keeps_target_witness :
  converting_handler (tuple [integral int32_t; string_like]) (on_bool true)
    (tuple_members [scalar_members; scalar_members] 1)
    (VTuple [VInt 4; VString ""])
  = (tuple_members [scalar_members; scalar_members] 1,
     VTuple [VInt 4; VString ""], Failure not_string)
  ∧ VTuple [VInt 4; VString ""] = VTuple [VInt 4; VString ""].
Proof.
  split; [reflexivity|].
  exact (failing_event_keeps_target (tuple [integral int32_t; string_like])
           (on_bool true) (tuple_members [scalar_members; scalar_members] 1)
           (tuple_members [scalar_members; scalar_members] 1)
           (VTuple [VInt 4; VString ""]) (VTuple [VInt 4; VString ""])
           not_string eq_refl).
Defined.

(** ** [signal_end] comes from [on_array_end] only *)

Lemma scalar_signal_end (t : ty) :
  match t with
  | integral _ | floating_point _ | string_like | boolean | null_like
  | described_enum _ => signal_end_on_array_end_only (converting_handler t)
  | _ => True
  end.
Proof.
  destruct t; try done; intros e h v h' v' H; cbn [converting_handler] in H;
    unfold_handler; destruct e; repeat case_match; simplify_eq; eauto.
Qed.

Lemma sequence_signal_end (T : ty) (inner : step) :
  signal_end_on_array_end_only (sequence_handler T inner).
Proof.
  intros e h v h' v' H. unfold_handler.
  destruct e; repeat case_match; simplify_eq; eauto.
Qed.

Lemma map_like_signal_end (T : ty) (inner : step) :
  signal_end_on_array_end_only (map_like_handler T inner).
Proof.
  intros e h v h' v' H. unfold_handler.
  destruct e; repeat case_match; simplify_eq; eauto.
Qed.

Lemma tuple_signal_end (inners : list step) :
  signal_end_on_array_end_only (tuple_handler inners).
Proof.
  intros e h v h' v' H. unfold_handler.
  destruct e; repeat case_match; simplify_eq; eauto.
Qed.

Lemma described_class_signal_end (names : list string) (inners : list step) :
  signal_end_on_array_end_only (described_class_handler names inners).
Proof.
  intros e h v h' v' H. unfold_handler.
  destruct e; repeat case_match; simplify_eq; eauto.
Qed.

Lemma optional_signal_end (inner : step) :
  signal_end_on_array_end_only inner →
  signal_end_on_array_end_only (optional_handler inner).
Proof.
  intros IH e h v h' v' H. unfold_handler.
  destruct e; repeat case_match; simplify_eq; eauto.
Qed.

(** X2.  A handler of any type calls [signal_end] on its parent only from
    [on_array_end]: no other event, in no state, ends the scope of the
    parent. *)
Theorem signal_end_only_from_on_array_end
    (t : ty) (e : event) (h h' : handler) (v v' : value) :
  converting_handler t e h v = (h', v', Success (Some signal_end)) →
  ∃ n, e = on_array_end n.
Proof.
  revert e h h' v v'.
  induction t as [ | | | | | | | |Ts IH|Dm IH|T IH] using ty_nested_ind;
    intros e h h' v v' Hev.
  1-6: match type of Hev with
       | converting_handler ?t _ _ _ = _ =>
           exact (scalar_signal_end t e h v h' v' Hev)
       end.
  - by eapply sequence_signal_end.
  - by eapply map_like_signal_end.
  - by eapply tuple_signal_end.
  - by eapply described_class_signal_end.
  - eapply optional_signal_end; [|exact Hev].
    intros e0 h0 v0 h0' v0'. apply IH.
Qed.

Lemma signal_end_only_from_on_array_end_witness :
  converting_handler (optional (sequence string_like)) (on_array_end 0)
    (make_handler (optional (sequence string_like))) (VOpt None)
  = (make_handler (optional (sequence string_like)), VOpt None,
     Success (Some signal_end))
  ∧ ∃ n, on_array_end 0 = on_array_end n.
Proof.
  split; [reflexivity|].
  exact (signal_end_only_from_on_array_end (optional (sequence string_like))
           (on_array_end 0)
           (make_handler (optional (sequence string_like)))
           (make_handler (optional (sequence string_like)))
           (VOpt None) (VOpt None) eq_refl).
Defined.

(** ** Typing is kept *)

Lemma static_cast_within_limits (V : int_type) (z : Z) :
  0 < width V →
  numeric_limits_min V ≤ static_cast V z ≤ numeric_limits_max V.
Proof.
  intros Hw. unfold numeric_limits_min, numeric_limits_max, static_cast.
  assert (2 ^ width V = 2 * 2 ^ (width V - 1)) as Hp.
  { rewrite <- Z.pow_succ_r by lia. f_equal. lia. }
  assert (0 < 2 ^ (width V - 1)) as Hq by (apply Z.pow_pos_nonneg; lia).
  destruct (is_signed V).
  - pose proof (Z.mod_pos_bound (z + 2 ^ (width V - 1)) (2 ^ width V)). lia.
  - pose proof (Z.mod_pos_bound z (2 ^ width V)). lia.
Qed.

Lemma enum_from_string_declared (De : list (string * Z)) (name : string)
    (x : Z) :
  enum_from_string De name = Some x → x ∈ De.*2.
Proof.
  induction De as [|[n e] De IH]; [done|]. simpl.
  destruct (String.eqb n name); intros H.
  - simplify_eq. simpl. by left.
  - simpl. right. by apply IH.
Qed.

(** The value-initialized object has its type. *)
Lemma default_value_has_type (t : ty) : wf_ty t → has_type t (default_value t).
Proof.
  induction t as [V|F| | | |De|T IH|T IH|Ts IH|Dm IH|T IH] using ty_nested_ind;
    intros Hwf; inversion Hwf; subst; simpl.
  - constructor. unfold numeric_limits_min, numeric_limits_max.
    assert (0 < 2 ^ (width V - 1)) by (apply Z.pow_pos_nonneg; lia).
    assert (0 < 2 ^ width V) by (apply Z.pow_pos_nonneg; lia).
    destruct (is_signed V); lia.
  - by constructor.
  - constructor.
  - constructor.
  - constructor.
  - constructor. by left.
  - constructor. constructor.
  - constructor. apply map_Forall_empty.
  - constructor. apply Forall2_fmap_r, Forall_Forall2_diag.
    rewrite Forall_forall in *. eauto.
  - constructor. apply Forall2_fmap_r, Forall_Forall2_diag.
    rewrite Forall_forall in *. eauto.
  - constructor.
Qed.

(** The handler as constructed is a handler for its type. *)
Lemma make_handler_handler_for (t : ty) : wf_ty t → handler_for t (make_handler t).
Proof.
  induction t as [V|F| | | |De|T IH|T IH|Ts IH|Dm IH|T IH] using ty_nested_ind;
    intros Hwf; inversion Hwf; subst; simpl.
  1-6: by constructor.
  - constructor; [by apply default_value_has_type | by apply IH].
  - constructor; [by apply default_value_has_type | by apply IH].
  - constructor; [|lia]. apply Forall2_fmap_r, Forall_Forall2_diag.
    rewrite Forall_forall in *. eauto.
  - constructor; [|lia]. apply Forall2_fmap_r, Forall_Forall2_diag.
    rewrite Forall_forall in *. eauto.
  - constructor; [by apply default_value_has_type | by apply IH].
Qed.

(** Brings the typing of what the inner handler returned into the context. *)
Ltac inner_typing IH :=
  repeat match goal with
  | E : _ _ _ _ = (_, _, _) |- _ =>
      eapply IH in E; [destruct E as (? & ? & ?)|by eauto..]
  end.

Lemma scalar_preserves_typing (t : ty) :
  wf_ty t →
  match t with
  | integral _ | floating_point _ | string_like | boolean | null_like
  | described_enum _ => preserves_typing t (converting_handler t)
  | _ => True
  end.
Proof.
  intros Hwf. destruct t; try done; intros e h v h' v' o Hh Hv Hev;
    inversion Hwf; inversion Hh; inversion Hv; subst;
    cbn [converting_handler] in Hev; unfold_handler;
    destruct e; repeat case_match; simplify_eq;
    split_and!; try done; constructor;
    eauto using static_cast_within_limits, enum_from_string_declared.
Qed.

Lemma sequence_preserves_typing (T : ty) (inner : step) :
  wf_ty T → preserves_typing T inner →
  preserves_typing (sequence T) (sequence_handler T inner).
Proof.
  intros Hwf IH e h v h' v' o Hh Hv Hev.
  inversion Hh; inversion Hv; subst. unfold_handler.
  destruct e; repeat case_match; simplify_eq; inner_typing IH;
    split_and!; try done; constructor;
    eauto using default_value_has_type.
  all: apply Forall_app; split; [done|by constructor].
Qed.

Lemma emplace_map_Forall (P : value → Prop) (key : string) (x : value)
    (m : gmap string value) :
  map_Forall (λ _, P) m → P x → map_Forall (λ _, P) (emplace key x m).
Proof.
  intros Hm Hx. unfold emplace. destruct (m !! key) eqn:E; [done|].
  by apply map_Forall_insert_2.
Qed.

Lemma map_like_preserves_typing (T : ty) (inner : step) :
  wf_ty T → preserves_typing T inner →
  preserves_typing (map_like T) (map_like_handler T inner).
Proof.
  intros Hwf IH e h v h' v' o Hh Hv Hev.
  inversion Hh; inversion Hv; subst. unfold_handler.
  destruct e; repeat case_match; simplify_eq; inner_typing IH;
    split_and!; try done; constructor;
    eauto using default_value_has_type, emplace_map_Forall.
Qed.

(** What a move leaves of an object is an object of the same type. *)
Lemma moved_from_has_type (t : ty) (v : value) :
  has_type t v → has_type t (moved_from v).
Proof.
  revert v.
  induction t as [V|F| | | |De|T IH|T IH|Ts IH|Dm IH|T IH] using ty_nested_ind;
    intros v Hv; inversion Hv as [| | | | | | | |? vs Hvs|? vs Hvs| |];
    subst; simpl; try by constructor.
  - constructor. apply Forall2_fmap_r.
    induction Hvs as [|T x Ts vs Hx Hvs IHvs]; constructor.
    + inversion IH; subst. auto.
    + inversion IH; subst. apply IHvs; [done|by constructor].
  - constructor. apply Forall2_fmap_r.
    induction Hvs as [|D x Dm vs Hx Hvs IHvs]; constructor.
    + inversion IH; subst. auto.
    + inversion IH; subst. apply IHvs; [done|by constructor].
  - constructor. auto.
Qed.

Lemma optional_preserves_typing (T : ty) (inner : step) :
  preserves_typing T inner →
  preserves_typing (optional T) (optional_handler inner).
Proof.
  intros IH e h v h' v' o Hh Hv Hev.
  inversion Hh; subst. unfold_handler.
  destruct e; repeat case_match; simplify_eq; inner_typing IH;
    split_and!; try done; constructor; eauto using moved_from_has_type.
Qed.

(** The event goes to the handler at index [I] of a tuple or described
    class: what comes back keeps the typing of all handlers and elements. *)
Lemma dispatch_preserves_typing (Ts : list ty) (hs : list handler)
    (vs : list value) (I : nat) (f : step) (hi h1 : handler) (x x1 : value)
    (e : event) (o : outcome) :
  Forall (λ T, preserves_typing T (converting_handler T)) Ts →
  Forall2 handler_for Ts hs → Forall2 has_type Ts vs →
  (map converting_handler Ts) !! I = Some f →
  hs !! I = Some hi → vs !! I = Some x →
  f e hi x = (h1, x1, o) →
  Forall2 handler_for Ts (<[I:=h1]> hs)
  ∧ Forall2 has_type Ts (<[I:=x1]> vs)
  ∧ o ≠ Ill_typed.
Proof.
  intros IH Hhs Hvs Hf Hhi Hx Hev.
  rewrite list_lookup_fmap in Hf.
  destruct (Ts !! I) as [T|] eqn:ET; simplify_eq/=.
  pose proof (Forall_lookup_1 _ _ _ _ IH ET) as IHT.
  pose proof (Forall2_lookup_lr _ _ _ _ _ _ Hhs ET Hhi) as HhT.
  pose proof (Forall2_lookup_lr _ _ _ _ _ _ Hvs ET Hx) as HxT.
  destruct (IHT _ _ _ _ _ _ HhT HxT Hev) as (Hh1 & Hx1 & Ho).
  split_and!; [| |done].
  - rewrite <- (list_insert_id Ts I T ET). by apply Forall2_insert.
  - rewrite <- (list_insert_id Ts I T ET). by apply Forall2_insert.
Qed.

(** Within the arity the three lookups of the dispatch succeed. *)
Lemma dispatch_defined (Ts : list ty) (hs : list handler) (vs : list value)
    (I : nat) :
  Forall2 handler_for Ts hs → Forall2 has_type Ts vs →
  (I < length Ts)%nat →
  is_Some ((map converting_handler Ts) !! I)
  ∧ is_Some (hs !! I) ∧ is_Some (vs !! I).
Proof.
  intros Hhs Hvs HI.
  pose proof (Forall2_length _ _ _ Hhs). pose proof (Forall2_length _ _ _ Hvs).
  split_and!; apply lookup_lt_is_Some; rewrite ?length_map; lia.
Qed.

Lemma tuple_preserves_typing (Ts : list ty) :
  Forall (λ T, preserves_typing T (converting_handler T)) Ts →
  preserves_typing (tuple Ts) (tuple_handler (map converting_handler Ts)).
Proof.
  intros IH e h v h' v' o Hh Hv Hev.
  inversion Hh as [| | | | | | | |? hs idx Hhs Hidx| |];
    inversion Hv as [| | | | | | | |? vs Hvs| | |]; subst.
  unfold tuple_handler in Hev. cbv zeta in Hev. rewrite length_map in Hev.
  change (@lookup nat (event → handler → value → handler * value * outcome))
    with (@lookup nat step) in Hev.
  destruct (decide (0 ≤ idx < Z.of_nat (length Ts))) as [Hin|Hout].
  - destruct (dispatch_defined Ts hs vs (Z.to_nat idx) Hhs Hvs ltac:(lia))
      as ([f Hf] & [hi Hhi] & [x Hx]).
    rewrite Hf, Hhi, Hx in Hev.
    destruct (f e hi x) as [[h1 x1] o1] eqn:Hinner.
    destruct (dispatch_preserves_typing _ _ _ _ _ _ _ _ _ _ _
                IH Hhs Hvs Hf Hhi Hx Hinner) as (Hh1 & Hx1 & Ho1).
    destruct e; repeat case_bool_decide; try lia;
      repeat case_match; simplify_eq;
      split_and!; try done; constructor; try done; lia.
  - destruct e; repeat case_bool_decide; try lia; simplify_eq;
      split_and!; try done; constructor; try done; lia.
Qed.

(** The loop of [on_key] ends with the index it started with or with the
    index of a member. *)
Lemma for_each_member_bound (names : list string) (key_ : string)
    (inner_active_ : Z) :
  for_each_member names key_ inner_active_ = inner_active_
  ∨ 0 ≤ for_each_member names key_ inner_active_ < Z.of_nat (length names).
Proof.
  induction names as [|name names IH] using rev_ind; [by left|].
  rewrite for_each_member_snoc, length_app. simpl.
  destruct (String.eqb key_ name); [right; lia|].
  destruct IH as [->|IH]; [by left|right; lia].
Qed.

Lemma described_class_preserves_typing (Dm : list (string * ty)) :
  Forall (λ D, preserves_typing D.2 (converting_handler D.2)) Dm →
  preserves_typing (described_class Dm)
    (described_class_handler (map fst Dm)
       (map (λ D, converting_handler D.2) Dm)).
Proof.
  intros IH e h v h' v' o Hh Hv Hev.
  inversion Hh as [| | | | | | | | |? key_ hs idx Hhs Hidx|];
    inversion Hv as [| | | | | | | | |? vs Hvs| |]; subst.
  assert (Forall2 handler_for Dm.*2 hs) as Hhs' by by apply Forall2_fmap_l.
  assert (Forall2 has_type Dm.*2 vs) as Hvs' by by apply Forall2_fmap_l.
  assert (Forall (λ T, preserves_typing T (converting_handler T)) Dm.*2)
    as IH' by by apply Forall_fmap.
  assert (length Dm.*2 = length Dm) as Hlen by apply length_fmap.
  assert (∀ hs' vs', Forall2 handler_for Dm.*2 hs' →
            Forall2 has_type Dm.*2 vs' →
            Forall2 (λ D, handler_for D.2) Dm hs'
            ∧ Forall2 (λ D, has_type D.2) Dm vs') as Hback.
  { intros hs' vs' H1 H2. by split; apply Forall2_fmap_l. }
  unfold described_class_handler in Hev. cbv zeta in Hev.
  replace (map (λ D : string * ty, converting_handler D.2) Dm)
    with (map converting_handler Dm.*2) in Hev
    by (unfold fmap; symmetry; apply (list_fmap_compose snd converting_handler)).
  change (@lookup nat (event → handler → value → handler * value * outcome))
    with (@lookup nat step) in Hev.
  destruct (decide (0 ≤ idx)) as [Hin|Hout].
  - destruct (dispatch_defined Dm.*2 hs vs (Z.to_nat idx) Hhs' Hvs'
                ltac:(lia)) as ([f Hf] & [hi Hhi] & [x Hx]).
    rewrite Hf, Hhi, Hx in Hev.
    destruct (f e hi x) as [[h1 x1] o1] eqn:Hinner.
    destruct (dispatch_preserves_typing _ _ _ _ _ _ _ _ _ _ _
                IH' Hhs' Hvs' Hf Hhi Hx Hinner) as (Hh1 & Hx1 & Ho1).
    destruct (Hback _ _ Hh1 Hx1) as [Hh2 Hx2].
    destruct e; repeat case_bool_decide; try lia;
      repeat case_match; simplify_eq;
      split_and!; try done; constructor; try done; lia.
  - pose proof (for_each_member_bound (map fst Dm)) as Hfor.
    assert (length (map fst Dm) = length Dm) as Hlen' by apply length_map.
    destruct e; repeat case_bool_decide; try lia; simplify_eq;
      split_and!; try done; constructor; try done; try lia.
    all: match goal with
         | _ : context [for_each_member _ ?k ?i] |- _ =>
             destruct (Hfor k i); lia
         | |- context [for_each_member _ ?k ?i] =>
             destruct (Hfor k i); lia
         end.
Qed.

Lemma converting_handler_preserves_typing (t : ty) :
  wf_ty t → preserves_typing t (converting_handler t).
Proof.
  induction t as [V|F| | | |De|T IH|T IH|Ts IH|Dm IH|T IH] using ty_nested_ind;
    intros Hwf.
  1-6: match goal with
       | |- preserves_typing ?t _ => exact (scalar_preserves_typing t Hwf)
       end.
  - inversion Hwf; subst. apply sequence_preserves_typing; auto.
  - inversion Hwf; subst. apply map_like_preserves_typing; auto.
  - inversion Hwf as [| | | | | | | |? HTs| |]; subst.
    apply tuple_preserves_typing.
    rewrite Forall_forall in *. auto.
  - inversion Hwf as [| | | | | | | | |? HDm|]; subst.
    apply described_class_preserves_typing.
    rewrite Forall_forall in *. auto.
  - inversion Hwf; subst. apply optional_preserves_typing; auto.
Qed.

(** X3.  Typing is an invariant of every run.  Started from a handler for
    the type [t] and a target of type [t], for instance the handler as
    constructed and the value-initialized target, a run of any events ends
    with a handler for [t] and a target of type [t]: every integer in the
    target lies within the limits of its integral type, every enum holds a
    described enumerator or 0, the index of every tuple handler lies between
    -1 and the arity, and no event met an object of another type. *)
Theorem typing_is_kept
    (t : ty) (es : list event) (h : handler) (v : value)
    (signals : list signal) :
  wf_ty t → handler_for t h → has_type t v →
  handler_for t (run_handler (feed (converting_handler t) es h v signals))
  ∧ has_type t (run_target (feed (converting_handler t) es h v signals))
  ∧ run_stopped (feed (converting_handler t) es h v signals) ≠ Some Ill_typed.
Proof.
  intros Hwf. revert h v signals.
  induction es as [|e es IH]; intros h v signals Hh Hv; [done|].
  cbn [feed].
  destruct (converting_handler t e h v) as [[h1 v1] o] eqn:Hev.
  destruct (converting_handler_preserves_typing t Hwf _ _ _ _ _ _ Hh Hv Hev)
    as (Hh1 & Hv1 & Ho).
  destruct o as [s|ec|]; [by apply IH| |done].
  simpl. split_and!; done.
Qed.

Lemma typing_is_kept_witness :
  wf_ty (sequence (tuple [integral int8_t; described_enum [("a", 3)]]))
  ∧ handler_for (sequence (tuple [integral int8_t; described_enum [("a", 3)]]))
      (make_handler
         (sequence (tuple [integral int8_t; described_enum [("a", 3)]])))
  ∧ has_type (sequence (tuple [integral int8_t; described_enum [("a", 3)]]))
      (VSeq [])
  ∧ has_type (sequence (tuple [integral int8_t; described_enum [("a", 3)]]))
      (run_target
         (feed
            (converting_handler
               (sequence (tuple [integral int8_t; described_enum [("a", 3)]])))
            [on_array_begin; on_array_begin; on_int64 127 "127";
             on_string "a" 1; on_array_end 2; on_array_begin;
             on_int64 128 "128"]
            (make_handler
               (sequence (tuple [integral int8_t; described_enum [("a", 3)]])))
            (VSeq []) [])).
Proof.
  assert (wf_ty (sequence (tuple [integral int8_t; described_enum [("a", 3)]])))
    as Hwf.
  { repeat constructor. }
  assert (has_type
            (sequence (tuple [integral int8_t; described_enum [("a", 3)]]))
            (VSeq [])) as Hv.
  { repeat constructor. }
  pose proof (make_handler_handler_for _ Hwf) as Hh.
  split; [exact Hwf|]. split; [exact Hh|]. split; [exact Hv|].
  exact (proj1 (proj2 (typing_is_kept _
           [on_array_begin; on_array_begin; on_int64 127 "127";
            on_string "a" 1; on_array_end 2; on_array_begin;
            on_int64 128 "128"] _ _ [] Hwf Hh Hv))).
Defined.

(** ** The errors a handler can report *)

Lemma scalar_fails_within (t : ty) :
  match t with
  | integral _ | floating_point _ | string_like | boolean | null_like
  | described_enum _ => fails_within (errors_of t) (converting_handler t)
  | _ => True
  end.
Proof.
  destruct t; try done; intros e h v h' v' ec H; cbn [converting_handler] in H;
    unfold_handler; destruct e; repeat case_match; simplify_eq; simpl;
    repeat first [by left | right].
Qed.

Lemma sequence_fails_within (T : ty) (inner : step) (ecs : list error) :
  fails_within ecs inner →
  fails_within (not_array :: ecs) (sequence_handler T inner).
Proof.
  intros IH e h v h' v' ec H. unfold_handler.
  destruct e; repeat case_match; simplify_eq;
    first [by left | right; by eapply IH].
Qed.

Lemma map_like_fails_within (T : ty) (inner : step) (ecs : list error) :
  fails_within ecs inner →
  fails_within (not_object :: ecs) (map_like_handler T inner).
Proof.
  intros IH e h v h' v' ec H. unfold_handler.
  destruct e; repeat case_match; simplify_eq;
    first [by left | right; by eapply IH].
Qed.

Lemma optional_fails_within (inner : step) (ecs : list error) :
  fails_within ecs inner → fails_within ecs (optional_handler inner).
Proof.
  intros IH e h v h' v' ec H. unfold_handler.
  destruct e; repeat case_match; simplify_eq; by eapply IH.
Qed.

(** A failure of the handler at some index is a failure of one of the
    element types. *)
Lemma dispatch_fails_within (Ts : list ty) (I : nat) (f : step) (e : event)
    (h h' : handler) (v v' : value) (ec : error) :
  Forall (λ T, fails_within (errors_of T) (converting_handler T)) Ts →
  (map converting_handler Ts) !! I = Some f →
  f e h v = (h', v', Failure ec) →
  ec ∈ mjoin (map errors_of Ts).
Proof.
  intros IH Hf Hev. rewrite list_lookup_fmap in Hf.
  destruct (Ts !! I) as [T|] eqn:ET; simplify_eq/=.
  apply list_elem_of_join. exists (errors_of T). split.
  - eapply (Forall_lookup_1 _ _ _ _ IH ET), Hev.
  - apply (list_elem_of_fmap_2 errors_of). by eapply list_elem_of_lookup_2.
Qed.

Lemma tuple_fails_within (Ts : list ty) :
  Forall (λ T, fails_within (errors_of T) (converting_handler T)) Ts →
  fails_within (errors_of (tuple Ts))
    (tuple_handler (map converting_handler Ts)).
Proof.
  intros IH e h v h' v' ec H. unfold tuple_handler in H. cbv zeta in H.
  change (@lookup nat (event → handler → value → handler * value * outcome))
    with (@lookup nat step) in H.
  cbn [errors_of].
  destruct e; repeat case_match; simplify_eq;
    first [by left | by right; left
          | right; right; by eapply dispatch_fails_within].
Qed.

Lemma described_class_fails_within (Dm : list (string * ty)) :
  Forall (λ D, fails_within (errors_of D.2) (converting_handler D.2)) Dm →
  fails_within (errors_of (described_class Dm))
    (described_class_handler (map fst Dm)
       (map (λ D, converting_handler D.2) Dm)).
Proof.
  intros IH e h v h' v' ec H.
  assert (Forall (λ T, fails_within (errors_of T) (converting_handler T))
            Dm.*2) as IH' by by apply Forall_fmap.
  unfold described_class_handler in H. cbv zeta in H.
  replace (map (λ D : string * ty, converting_handler D.2) Dm)
    with (map converting_handler Dm.*2) in H
    by (unfold fmap; symmetry; apply (list_fmap_compose snd converting_handler)).
  change (@lookup nat (event → handler → value → handler * value * outcome))
    with (@lookup nat step) in H.
  cbn [errors_of].
  replace (map (λ D : string * ty, errors_of D.2) Dm)
    with (map errors_of Dm.*2)
    by (unfold fmap; symmetry; apply (list_fmap_compose snd errors_of)).
  destruct e; repeat case_match; simplify_eq;
    first [by left | by right; left
          | right; right; by eapply dispatch_fails_within].
Qed.

(** X4.  The errors a handler for the type [t] can report are those of
    [errors_of t]: the shape error of each composite inside [t], the type
    error of each scalar, [not_exact] where there is an integral type,
    [unknown_name] where there is an enum or a described class,
    [size_mismatch] where there is a tuple; [extra_data] is never reported by
    a nested handler. *)
Theorem failures_are_errors_of_the_type
    (t : ty) (e : event) (h h' : handler) (v v' : value) (ec : error) :
  converting_handler t e h v = (h', v', Failure ec) →
  ec ∈ errors_of t ∧ ec ≠ extra_data.
Proof.
  assert (∀ t, fails_within (errors_of t) (converting_handler t)) as Hin.
  { clear. intros t.
    induction t as [ | | | | | |T IH|T IH|Ts IH|Dm IH|T IH] using ty_nested_ind.
    1-6: match goal with
         | |- fails_within _ (converting_handler ?t) =>
             exact (scalar_fails_within t)
         end.
    - by apply sequence_fails_within.
    - by apply map_like_fails_within.
    - by apply tuple_fails_within.
    - by apply described_class_fails_within.
    - by apply optional_fails_within. }
  assert (∀ t, extra_data ∉ errors_of t) as Hextra.
  { clear. intros t.
    induction t as [ | | | | | |T IH|T IH|Ts IH|Dm IH|T IH] using ty_nested_ind;
      cbn [errors_of]; rewrite ?not_elem_of_cons; split_and?;
      try done; try apply not_elem_of_nil.
    - intros (l & Hl & Hls)%list_elem_of_join.
      apply list_elem_of_fmap in Hls as (T & -> & HT).
      rewrite Forall_forall in IH. by eapply IH.
    - intros (l & Hl & Hls)%list_elem_of_join.
      apply list_elem_of_fmap in Hls as (D & -> & HD).
      rewrite Forall_forall in IH. by eapply IH. }
  intros Hev. split; [by eapply Hin|].
  intros ->. eapply Hextra, Hin, Hev.
Qed.

Lemma failures_are_errors_of_the_type_witness :
  converting_handler (sequence (optional (integral uint8_t)))
    (on_int64 256 "256")
    (sequence_members (VOpt None)
       (optional_members (VInt 0) scalar_members false) true)
    (VSeq [])
  = (sequence_members (VOpt None)
       (optional_members (VInt 0) scalar_members true) true,
     VSeq [], Failure not_exact)
  ∧ not_exact ∈ [not_array; not_integer; not_exact].
Proof.
  split; [reflexivity|].
  exact (proj1 (failures_are_errors_of_the_type
           (sequence (optional (integral uint8_t))) (on_int64 256 "256")
           (sequence_members (VOpt None)
              (optional_members (VInt 0) scalar_members false) true)
           (sequence_members (VOpt None)
              (optional_members (VInt 0) scalar_members true) true)
           (VSeq []) (VSeq []) not_exact eq_refl)).
Defined.

(** ** Text that arrives in parts *)

Lemma string_app_assoc (s1 s2 s3 : string) :
  (s1 +:+ s2) +:+ s3 = s1 +:+ (s2 +:+ s3).
Proof.
  induction s1 as [|c s1 IH]; [done|].
  change (String c ((s1 +:+ s2) +:+ s3) = String c (s1 +:+ (s2 +:+ s3))).
  by rewrite IH.
Qed.

(** X5.  A string handler appends the text of every [on_string_part] and of
    the closing [on_string] to the target in the order of arrival: after the
    run the target is what it held before followed by all the parts, the
    parts neither fail nor call the parent, and the closing event calls
    [signal_value] once. *)
Theorem string_like_handler_appends_parts
    (parts : list (string * N)) (sv : string) (n : N) (h : handler)
    (s : string) (signals : list signal) :
  feed (converting_handler string_like)
    (map (λ p, on_string_part p.1 p.2) parts ++ [on_string sv n])
    h (VString s) signals
  = Run h (VString (s +:+ foldr String.append sv parts.*1))
      (signals ++ [signal_value]) None.
Proof.
  revert s signals. induction parts as [|[p k] parts IH]; intros s signals.
  - reflexivity.
  - cbn [map app feed converting_handler string_like_handler fst snd].
    cbn [converting_handler] in IH. rewrite IH. cbn [option_list].
    rewrite app_nil_r. cbn [fmap list_fmap foldr fst].
    by rewrite string_app_assoc.
Qed.

(** X6.  A described enum handler looks the name up only at the closing
    [on_string], and looks up everything it was given since it was
    constructed: the parts neither fail nor call the parent, and the closing
    event stores the enumerator and calls [signal_value] when the text up to
    its first NUL is a described name, and fails with [unknown_name],
    leaving the target alone, when it is not. *)
Theorem described_enum_handler_assembles_name
    (De : list (string * Z)) (parts : list (string * N)) (sv : string)
    (n : N) (name_ : string) (v : value) (signals : list signal) :
  feed (converting_handler (described_enum De))
    (map (λ p, on_string_part p.1 p.2) parts ++ [on_string sv n])
    (enum_members name_) v signals
  = match
      enum_from_string De (data (name_ +:+ foldr String.append sv parts.*1))
    with
    | Some x =>
        Run (enum_members (name_ +:+ foldr String.append sv parts.*1))
          (VEnum x) (signals ++ [signal_value]) None
    | None =>
        Run (enum_members (name_ +:+ foldr String.append sv parts.*1))
          v signals (Some (Failure unknown_name))
    end.
Proof.
  revert name_ signals. induction parts as [|[p k] parts IH];
    intros name_ signals.
  - cbn. by destruct (enum_from_string De (data (name_ +:+ sv))).
  - cbn [map app feed converting_handler described_enum_handler fst snd].
    cbn [converting_handler] in IH. rewrite IH. cbn [option_list].
    rewrite app_nil_r. cbn [fmap list_fmap foldr fst].
    by rewrite string_app_assoc.
Qed.

(** ** The top handler and the handler inside it *)

(** While [inner_active_] is set the top handler hands every forwarded event
    to the inner handler and fails exactly when that one fails. *)
Lemma parse_forwarded (t : ty) (es : list event) (rest : list parser_event)
    (h : handler) (v : value) (signals : list signal) :
  parse t (map forwarded es ++ rest) (IntoMembers h true) v
  = match run_stopped (feed (converting_handler t) es h v signals) with
    | Some o =>
        (IntoMembers
           (run_handler (feed (converting_handler t) es h v signals)) true,
         run_target (feed (converting_handler t) es h v signals), Some o)
    | None =>
        parse t rest
          (IntoMembers
             (run_handler (feed (converting_handler t) es h v signals)) true)
          (run_target (feed (converting_handler t) es h v signals))
    end.
Proof.
  revert h v signals. induction es as [|e es IH]; intros h v signals.
  - reflexivity.
  - cbn [map app parse feed into_handler into_inner_active_ into_inner_ negb].
    destruct (converting_handler t e h v) as [[h1 v1] [s|ec|]];
      [apply IH|done|done].
Qed.

(** X7.  A whole document.  Between [on_document_begin] and
    [on_document_end] the top handler is transparent: the run of the
    document ends with the inner handler and the target that the run of the
    forwarded events alone ends with; it fails with the error of the first
    failing event and succeeds when there is none, whatever the inner handler
    called on its parent. *)
Theorem into_handler_document
    (t : ty) (es : list event) (v : value) :
  parse t (on_document_begin :: map forwarded es ++ [on_document_end])
    (make_into_handler t) v
  = (IntoMembers
       (run_handler (feed (converting_handler t) es (make_handler t) v []))
       (bool_decide
          (run_stopped (feed (converting_handler t) es (make_handler t) v [])
           ≠ None)),
     run_target (feed (converting_handler t) es (make_handler t) v []),
     run_stopped (feed (converting_handler t) es (make_handler t) v [])).
Proof.
  cbn [parse into_handler]. unfold make_into_handler.
  rewrite (parse_forwarded t es [on_document_end] _ _ []).
  by destruct (run_stopped _).
Qed.

(** ** Comments are ignored *)

(** X8.  Comments change nothing: a run of the top handler over any events,
    from any state, ends as the run over the same events with every
    [on_comment_part] and [on_comment] taken out. *)
Theorem into_handler_ignores_comments
    (t : ty) (pes : list parser_event) (h : into_members) (v : value) :
  parse t pes h v = parse t (filter (λ pe, is_comment pe = false) pes) h v.
Proof.
  revert h v. induction pes as [|pe pes IH]; intros h v; [done|].
  destruct pe; rewrite ?filter_cons_True, ?filter_cons_False by done;
    cbn [parse]; cbn [into_handler]; try apply IH;
    repeat case_match; try done; apply IH.
Qed.

(** ** Runs that build one value *)

Lemma quiet_app (f : step) (es1 es2 : list event) (h : handler) (v : value) :
  quiet f (es1 ++ es2) h v
  = match quiet f es1 h v with
    | Some (h1, v1) => quiet f es2 h1 v1
    | None => None
    end.
Proof.
  revert h v. induction es1 as [|e es1 IH]; intros h v; [done|].
  cbn [app quiet]. destruct (f e h v) as [[h1 v1] [[s|]| |]]; try done.
Qed.

Lemma completes_app (f : step) (es1 es2 : list event) (h h1 : handler)
    (v v1 : value) :
  es2 ≠ [] → quiet f es1 h v = Some (h1, v1) →
  completes f (es1 ++ es2) h v = completes f es2 h1 v1.
Proof.
  intros Hne. revert h v. induction es1 as [|e es1 IH]; intros h v Hq.
  - by simplify_eq/=.
  - cbn [app quiet completes] in *.
    destruct (f e h v) as [[h2 v2] [[s|]| |]]; try done.
    destruct (es1 ++ es2) eqn:Happ.
    + by apply app_eq_nil in Happ as [_ ?].
    + by apply IH.
Qed.

Lemma quiet_feed (f : step) (es rest : list event) (h h1 : handler)
    (v v1 : value) (signals : list signal) :
  quiet f es h v = Some (h1, v1) →
  feed f (es ++ rest) h v signals = feed f rest h1 v1 signals.
Proof.
  revert h v. induction es as [|e es IH]; intros h v Hq.
  - by simplify_eq/=.
  - cbn [app quiet feed] in *.
    destruct (f e h v) as [[h2 v2] [[s|]| |]]; try done.
    cbn [option_list]. rewrite app_nil_r. by apply IH.
Qed.

Lemma completes_feed (f : step) (es rest : list event) (h h1 : handler)
    (v v1 : value) (signals : list signal) :
  completes f es h v = Some (h1, v1) →
  feed f (es ++ rest) h v signals
  = feed f rest h1 v1 (signals ++ [signal_value]).
Proof.
  revert h v. induction es as [|e es IH]; intros h v Hc; [done|].
  cbn [app completes feed] in *.
  destruct (f e h v) as [[h2 v2] [[[]|]| |]]; try done.
  - by destruct es; simplify_eq/=.
  - destruct es; [done|]. cbn [option_list]. rewrite app_nil_r. by apply IH.
Qed.

(** ** Composites forward the events of a value *)

(** A sequence handler inside its brackets hands every event to the element
    handler. *)
Lemma sequence_handler_active (T : ty) (inner : step) (e : event)
    (next_value_ : value) (inner_ : handler) (l : list value) :
  sequence_handler T inner e (sequence_members next_value_ inner_ true)
    (VSeq l)
  = (let '(inner_', x, o) := inner e inner_ next_value_ in
     match o with
     | Success (Some signal_value) =>
         (sequence_members (default_value T) inner_' true, VSeq (l ++ [x]),
          Success None)
     | Success (Some signal_end) =>
         (sequence_members x inner_' false, VSeq l,
          Success (Some signal_value))
     | _ => (sequence_members x inner_' true, VSeq l, o)
     end).
Proof.
  destruct e; cbn; destruct (inner _ inner_ next_value_) as [[? ?] [[[]|]| |]];
    reflexivity.
Qed.

(** The events of one element, given to a sequence inside its brackets,
    append that element. *)
Lemma sequence_handler_element (T : ty) (inner : step) (es : list event)
    (next_value_ x : value) (inner_ inner_' : handler) (l : list value) :
  completes inner es inner_ next_value_ = Some (inner_', x) →
  quiet (sequence_handler T inner) es
    (sequence_members next_value_ inner_ true) (VSeq l)
  = Some (sequence_members (default_value T) inner_' true, VSeq (l ++ [x])).
Proof.
  revert next_value_ inner_. induction es as [|e es IH];
    intros next_value_ inner_ Hc; [done|].
  cbn [completes quiet] in *. rewrite sequence_handler_active.
  destruct (inner e inner_ next_value_) as [[h1 v1] [[[]|]| |]]; try done.
  - by destruct es; simplify_eq/=.
  - destruct es; [done|]. by apply IH.
Qed.

(** ** Reading back what was written out *)

Lemma sequence_reads_elements (T : ty) (xs acc : list value)
    (inner_ : handler) :
  reads_back T → idle T inner_ → Forall (has_type T) xs →
  ∃ inner_', idle T inner_'
    ∧ quiet (converting_handler (sequence T)) (mjoin (map (events_of T) xs))
        (sequence_members (default_value T) inner_ true) (VSeq acc)
      = Some (sequence_members (default_value T) inner_' true,
              VSeq (acc ++ xs)).
Proof.
  intros [Hread _] Hidle Hxs. revert acc inner_ Hidle.
  induction Hxs as [|x xs Hx _ IH]; intros acc inner_ Hidle.
  - exists inner_. by rewrite app_nil_r.
  - destruct (Hread _ _ Hidle Hx) as (inner1 & Hidle1 & Hc).
    destruct (IH (acc ++ [x]) inner1 Hidle1) as (inner2 & Hidle2 & Hq).
    exists inner2. split; [done|].
    cbn [map mjoin list_join]. rewrite quiet_app.
    cbn [converting_handler] in *.
    rewrite (sequence_handler_element _ _ _ _ _ _ _ _ Hc). cbn beta iota.
    rewrite <- app_assoc in Hq. exact Hq.
Qed.

Lemma sequence_reads_back (T : ty) : reads_back T → reads_back (sequence T).
Proof.
  intros HT. split.
  - intros h x Hidle Hx.
    inversion Hidle as [| | | | | |? inner_ Hinner| | | |]; subst.
    inversion Hx as [| | | | | |? l Hl| | | | |]; subst.
    destruct (sequence_reads_elements T l [] inner_ HT Hinner Hl)
      as (inner1 & Hidle1 & Hq).
    exists (sequence_members (default_value T) inner1 false).
    split; [by constructor|].
    cbn [events_of completes]. cbn [converting_handler sequence_handler].
    change (default_value (sequence T)) with (VSeq []). cbn beta iota.
    destruct (mjoin (map (events_of T) l) ++ [on_array_end (N.of_nat (length l))])
      eqn:Happ; [apply app_eq_nil in Happ; destruct Happ; discriminate|].
    rewrite <- Happ. clear Happ.
    change (sequence_handler T (converting_handler T))
      with (converting_handler (sequence T)).
    rewrite (completes_app _ _ [on_array_end (N.of_nat (length l))]
               _ _ _ _ ltac:(done) Hq).
    cbn [completes converting_handler]. rewrite sequence_handler_active.
    destruct HT as [_ Hend]. by rewrite (Hend _ _ Hidle1).
  - intros h n Hidle.
    by inversion Hidle as [| | | | | |? inner_ Hinner| | | |]; subst.
Qed.

Lemma integral_reads_back (V : int_type) :
  0 < width V ≤ 64 → reads_back (integral V).
Proof.
  intros Hw. split.
  - intros h x Hidle Hx. inversion Hidle; subst.
    inversion Hx as [? z Hz| | | | | | | | | | |]; subst.
    exists scalar_members. split; [constructor|].
    destruct (numeric_limits_bounds V Hw) as (Hmin & Hmax & Hmax').
    cbn [events_of completes].
    change (numeric_limits_max int64_t) with (2 ^ 63 - 1).
    case_bool_decide.
    + rewrite (integral_handler_on_int64 V Hw) by lia.
      by rewrite bool_decide_eq_true_2.
    + rewrite (integral_handler_on_uint64 V Hw) by lia.
      by rewrite bool_decide_eq_true_2.
  - intros h n Hidle. by inversion Hidle.
Qed.

Lemma scalar_reads_back (t : ty) :
  match t with
  | floating_point _ | string_like | boolean | null_like => reads_back t
  | _ => True
  end.
Proof.
  destruct t; try done; split.
  all: try (intros h n Hidle; by inversion Hidle).
  all: intros h x Hidle Hx; inversion Hidle;
    inversion Hx as [|? [] Hof| | | | | | | | | |]; subst;
    exists scalar_members; (split; [constructor|reflexivity]).
Qed.

(** A map handler with a complete key hands every event to the handler of
    the mapped type. *)
Lemma map_like_handler_active (T : ty) (inner : step) (e : event)
    (key_ : string) (next_value_ : value) (inner_ : handler)
    (m : gmap string value) :
  map_like_handler T inner e (map_members key_ next_value_ inner_ true)
    (VMap m)
  = (let '(inner_', x, o) := inner e inner_ next_value_ in
     match o with
     | Success (Some signal_value) =>
         (map_members "" (default_value T) inner_' false,
          VMap (emplace key_ x m), Success None)
     | Success (Some signal_end) =>
         (map_members key_ x inner_' false, VMap m,
          Success (Some signal_value))
     | _ => (map_members key_ x inner_' true, VMap m, o)
     end).
Proof.
  destruct e; cbn; destruct (inner _ inner_ next_value_) as [[? ?] [[[]|]| |]];
    reflexivity.
Qed.

Lemma map_like_handler_value (T : ty) (inner : step) (es : list event)
    (key_ : string) (next_value_ x : value) (inner_ inner_' : handler)
    (m : gmap string value) :
  completes inner es inner_ next_value_ = Some (inner_', x) →
  quiet (map_like_handler T inner) es
    (map_members key_ next_value_ inner_ true) (VMap m)
  = Some (map_members "" (default_value T) inner_' false,
          VMap (emplace key_ x m)).
Proof.
  revert next_value_ inner_. induction es as [|e es IH];
    intros next_value_ inner_ Hc; [done|].
  cbn [completes quiet] in *. rewrite map_like_handler_active.
  destruct (inner e inner_ next_value_) as [[h1 v1] [[[]|]| |]]; try done.
  - by destruct es; simplify_eq/=.
  - destruct es; [done|]. by apply IH.
Qed.

(** A key and the events of one value, given to a map between two entries,
    emplace that entry. *)
Lemma map_like_handler_entry (T : ty) (inner : step) (es : list event)
    (key : string) (n : N) (next_value_ x : value) (inner_ inner_' : handler)
    (m : gmap string value) :
  completes inner es inner_ next_value_ = Some (inner_', x) →
  quiet (map_like_handler T inner) (on_key key n :: es)
    (map_members "" next_value_ inner_ false) (VMap m)
  = Some (map_members "" (default_value T) inner_' false,
          VMap (emplace key x m)).
Proof.
  intros Hc. cbn [quiet map_like_handler].
  change ("" +:+ key) with key. by apply map_like_handler_value.
Qed.

Lemma map_like_reads_entries (T : ty) (kxs : list (string * value))
    (m : gmap string value) (inner_ : handler) :
  reads_back T → idle T inner_ → Forall (λ kx, has_type T kx.2) kxs →
  ∃ inner_', idle T inner_'
    ∧ quiet (converting_handler (map_like T))
        (mjoin (map (λ kx, on_key kx.1 (N.of_nat (String.length kx.1))
                             :: events_of T kx.2) kxs))
        (map_members "" (default_value T) inner_ false) (VMap m)
      = Some (map_members "" (default_value T) inner_' false,
              VMap (foldl (λ m kx, emplace kx.1 kx.2 m) m kxs)).
Proof.
  intros [Hread _] Hidle Hxs. revert m inner_ Hidle.
  induction Hxs as [|[k x] kxs Hx _ IH]; intros m inner_ Hidle.
  - by exists inner_.
  - destruct (Hread _ _ Hidle Hx) as (inner1 & Hidle1 & Hc).
    destruct (IH (emplace k x m) inner1 Hidle1) as (inner2 & Hidle2 & Hq).
    exists inner2. split; [done|].
    cbn [map mjoin list_join foldl fst snd].
    change (?a :: ?l ++ ?r) with ((a :: l) ++ r). rewrite quiet_app.
    cbn [converting_handler] in *.
    rewrite (map_like_handler_entry _ _ _ _ _ _ _ _ _ _ Hc). cbn beta iota.
    exact Hq.
Qed.

(** What a run of entries leaves under a key: what the map held before, and
    else the first value the run gave for the key. *)
Lemma lookup_foldl_emplace (kxs : list (string * value))
    (m : gmap string value) (key : string) :
  foldl (λ m kx, emplace kx.1 kx.2 m) m kxs !! key
  = match m !! key with
    | Some y => Some y
    | None => first_with_key key kxs
    end.
Proof.
  revert m. induction kxs as [|[k x] kxs IH]; intros m.
  - simpl. by destruct (m !! key).
  - cbn [foldl first_with_key fst snd]. rewrite IH. unfold emplace.
    destruct (String.eqb_spec k key) as [->|Hne].
    + destruct (m !! key) eqn:E; [by rewrite E|]. by rewrite lookup_insert_eq.
    + destruct (m !! k) eqn:E; [done|]. by rewrite lookup_insert_ne.
Qed.

Lemma first_with_key_Some (kxs : list (string * value)) (key : string)
    (x : value) :
  first_with_key key kxs = Some x → (key, x) ∈ kxs.
Proof.
  induction kxs as [|[k y] kxs IH]; [done|]. simpl.
  destruct (String.eqb_spec k key) as [->|Hne]; intros H.
  - simplify_eq. by left.
  - right. by apply IH.
Qed.

Lemma first_with_key_None (kxs : list (string * value)) (key : string)
    (x : value) :
  first_with_key key kxs = None → (key, x) ∉ kxs.
Proof.
  induction kxs as [|[k y] kxs IH]; [intros _; apply not_elem_of_nil|]. simpl.
  destruct (String.eqb_spec k key) as [->|Hne]; intros H; [done|].
  apply not_elem_of_cons. split; [congruence|by apply IH].
Qed.

(** Emplacing the entries of a map, in any order they are listed in, into
    the empty map gives the map. *)
Lemma foldl_emplace_map_to_list (m : gmap string value) :
  foldl (λ m kx, emplace kx.1 kx.2 m) ∅ (map_to_list m) = m.
Proof.
  apply map_eq. intros key. rewrite lookup_foldl_emplace, lookup_empty.
  destruct (first_with_key key (map_to_list m)) as [x|] eqn:E.
  - apply first_with_key_Some in E. by apply elem_of_map_to_list in E.
  - destruct (m !! key) as [x|] eqn:Em; [|done].
    apply elem_of_map_to_list in Em.
    by apply (first_with_key_None _ _ x) in E.
Qed.

Lemma map_like_reads_back (T : ty) : reads_back T → reads_back (map_like T).
Proof.
  intros HT. split.
  - intros h x Hidle Hx.
    inversion Hidle as [| | | | | | |? inner_ Hinner| | |]; subst.
    inversion Hx as [| | | | | | |? m Hm| | | |]; subst.
    assert (Forall (λ kx, has_type T kx.2) (map_to_list m)) as Hl.
    { apply Forall_forall. intros [k y] Hky.
      apply elem_of_map_to_list in Hky. by apply (Hm k y). }
    destruct (map_like_reads_entries T (map_to_list m) ∅ inner_ HT Hinner Hl)
      as (inner1 & Hidle1 & Hq).
    exists (map_members "" (default_value T) inner1 false).
    split; [by constructor|].
    cbn [events_of completes]. cbn [converting_handler map_like_handler].
    change (default_value (map_like T)) with (VMap ∅). cbn beta iota.
    match goal with
    | |- context [match ?l ++ [?e] with _ => _ end] =>
        destruct (l ++ [e]) eqn:Happ;
          [apply app_eq_nil in Happ; destruct Happ; discriminate|];
        rewrite <- Happ; clear Happ
    end.
    change (map_like_handler T (converting_handler T))
      with (converting_handler (map_like T)).
    rewrite (completes_app _ _ [on_object_end (N.of_nat (size m))]
               _ _ _ _ ltac:(done) Hq).
    by rewrite foldl_emplace_map_to_list.
  - intros h n Hidle.
    by inversion Hidle as [| | | | | | |? inner_ Hinner| | |]; subst.
Qed.

(** A tuple handler whose index [k] is within the arity hands every event
    to handler [k], whose target is element [k]. *)
Lemma tuple_handler_active (inners : list step) (e : event) (k : nat)
    (f : step) (hs : list handler) (hi : handler) (elems : list value)
    (y : value) :
  inners !! k = Some f → hs !! k = Some hi → elems !! k = Some y →
  tuple_handler inners e (tuple_members hs (Z.of_nat k)) (VTuple elems)
  = (let '(hi', y', o) := f e hi y in
     match o with
     | Success (Some signal_value) =>
         (tuple_members (<[k:=hi']> hs) (Z.of_nat k + 1),
          VTuple (<[k:=y']> elems), Success None)
     | Success (Some signal_end) =>
         (tuple_members (<[k:=hi']> hs) (-1), VTuple (<[k:=y']> elems),
          Success (Some signal_value))
     | _ =>
         (tuple_members (<[k:=hi']> hs) (Z.of_nat k),
          VTuple (<[k:=y']> elems), o)
     end).
Proof.
  intros Hf Hhi Hy. pose proof (lookup_lt_Some _ _ _ Hf) as Hk.
  unfold tuple_handler. cbv zeta.
  change (@lookup nat (event → handler → value → handler * value * outcome))
    with (@lookup nat step).
  rewrite Nat2Z.id, Hf, Hhi, Hy.
  rewrite (bool_decide_eq_false_2 (Z.of_nat k < 0)) by lia.
  rewrite (bool_decide_eq_false_2 (Z.of_nat k >= Z.of_nat (length inners)))
    by lia.
  destruct e; destruct (f _ hi y) as [[? ?] [[[]|]| |]]; reflexivity.
Qed.

(** The events of one element, given to a tuple handler at index [k], fill
    element [k] and move the index on. *)
Lemma tuple_handler_element (inners : list step) (es : list event) (k : nat)
    (f : step) (hs : list handler) (hi hi' : handler) (elems : list value)
    (y x : value) :
  inners !! k = Some f → hs !! k = Some hi → elems !! k = Some y →
  completes f es hi y = Some (hi', x) →
  quiet (tuple_handler inners) es (tuple_members hs (Z.of_nat k))
    (VTuple elems)
  = Some (tuple_members (<[k:=hi']> hs) (Z.of_nat k + 1),
          VTuple (<[k:=x]> elems)).
Proof.
  intros Hf. revert hs hi elems y. induction es as [|e es IH];
    intros hs hi elems y Hhi Hy Hc; [done|].
  pose proof (lookup_lt_Some _ _ _ Hhi). pose proof (lookup_lt_Some _ _ _ Hy).
  cbn [completes quiet] in *.
  rewrite (tuple_handler_active _ _ _ _ _ _ _ _ Hf Hhi Hy).
  destruct (f e hi y) as [[h1 y1] [[[]|]| |]]; try done.
  - by destruct es; simplify_eq/=.
  - destruct es as [|e' es]; [done|].
    rewrite (IH (<[k:=h1]> hs) h1 (<[k:=y1]> elems) y1);
      [|by apply list_lookup_insert_eq..|done].
    by rewrite !list_insert_insert_eq.
Qed.

Lemma tuple_reads_elements (Ts : list ty) (vs : list value) (n k : nat)
    (hs : list handler) :
  Forall reads_back Ts → Forall2 has_type (take (k + n) Ts) vs →
  Forall2 idle Ts hs → (k + n ≤ length Ts)%nat →
  ∃ hs', Forall2 idle Ts hs'
    ∧ quiet (converting_handler (tuple Ts))
        (mjoin (zip_with events_of (drop k Ts) (drop k vs)))
        (tuple_members hs (Z.of_nat k))
        (VTuple (take k vs ++ drop k (map default_value Ts)))
      = Some (tuple_members hs' (Z.of_nat (length vs)),
              VTuple (vs ++ drop (length vs) (map default_value Ts))).
Proof.
  intros Hread. revert k hs vs.
  induction n as [|n IH]; intros k hs vs Hvs Hhs Hk;
    pose proof (Forall2_length _ _ _ Hvs) as Hlen;
    rewrite length_take in Hlen.
  - exists hs. split; [done|].
    assert (length vs = k) as Hk' by lia.
    rewrite (drop_ge vs) by lia. rewrite zip_with_nil_r.
    rewrite take_ge by lia. by rewrite Hk'.
  - pose proof (Forall2_length _ _ _ Hhs) as Hlenh.
    destruct (lookup_lt_is_Some_2 Ts k ltac:(lia)) as [T HT].
    destruct (lookup_lt_is_Some_2 vs k ltac:(lia)) as [x Hx].
    destruct (lookup_lt_is_Some_2 hs k ltac:(lia)) as [hi Hhi].
    pose proof (Forall_lookup_1 _ _ _ _ Hread HT) as [HreadT _].
    assert (take (k + S n) Ts !! k = Some T) as HT'
      by (rewrite lookup_take_lt by lia; done).
    pose proof (Forall2_lookup_lr _ _ _ _ _ _ Hvs HT' Hx) as HxT.
    pose proof (Forall2_lookup_lr _ _ _ _ _ _ Hhs HT Hhi) as HhiT.
    destruct (HreadT _ _ HhiT HxT) as (hi' & Hidle' & Hc).
    destruct (IH (S k) (<[k:=hi']> hs) vs) as (hs' & Hhs' & Hq); [| |lia|].
    { by replace (S k + n)%nat with (k + S n)%nat by lia. }
    { rewrite <- (list_insert_id Ts k T HT). by apply Forall2_insert. }
    exists hs'. split; [done|].
    rewrite (drop_S Ts T k HT), (drop_S vs x k Hx).
    cbn [zip_with mjoin list_join]. rewrite quiet_app.
    cbn [converting_handler] in *.
    assert ((take k vs ++ drop k (map default_value Ts)) !! k
            = Some (default_value T)) as Hy.
    { rewrite lookup_app_r by (rewrite length_take; lia).
      rewrite length_take, lookup_drop.
      replace (k + (k - k `min` length vs))%nat with k by lia.
      rewrite list_lookup_fmap. by rewrite HT. }
    rewrite (tuple_handler_element _ _ k (converting_handler T) hs hi hi'
               _ (default_value T) x); [|by rewrite list_lookup_fmap, HT|done..].
    cbn beta iota.
    replace (Z.of_nat k + 1) with (Z.of_nat (S k)) by lia.
    replace (<[k:=x]> (take k vs ++ drop k (map default_value Ts)))
      with (take (S k) vs ++ drop (S k) (map default_value Ts)); [exact Hq|].
    rewrite (take_S_r vs k x Hx).
    rewrite (drop_S (map default_value Ts) (default_value T) k)
      by (by rewrite list_lookup_fmap, HT).
    rewrite insert_app_r_alt by (rewrite length_take; lia).
    rewrite length_take. replace (k - k `min` length vs)%nat with 0%nat by lia.
    by rewrite <- app_assoc.
Qed.

Lemma make_handler_idle (t : ty) : idle t (make_handler t).
Proof.
  induction t as [V|F| | | |De|T IH|T IH|Ts IH|Dm IH|T IH] using ty_nested_ind;
    simpl; try by constructor.
  - constructor. apply Forall2_fmap_r, Forall_Forall2_diag. done.
  - constructor. apply Forall2_fmap_r, Forall_Forall2_diag. done.
Qed.

(** The events of the first elements of a tuple, however many, between
    [on_array_begin] and [on_array_end], fill those elements, leave the
    others as initialized, and complete the tuple. *)
Lemma tuple_reads_prefix (Ts : list ty) (vs : list value) (n : N)
    (hs : list handler) :
  Forall reads_back Ts → Forall2 has_type (take (length vs) Ts) vs →
  Forall2 idle Ts hs → (length vs ≤ length Ts)%nat →
  ∃ hs', Forall2 idle Ts hs'
    ∧ completes (converting_handler (tuple Ts))
        (on_array_begin :: mjoin (zip_with events_of Ts vs)
           ++ [on_array_end n])
        (tuple_members hs (-1)) (default_value (tuple Ts))
      = Some (tuple_members hs' (-1),
              VTuple (vs ++ drop (length vs) (map default_value Ts))).
Proof.
  intros HTs Hvs Hhs Hlen.
  destruct (tuple_reads_elements Ts vs (length vs) 0 hs HTs Hvs Hhs
              ltac:(lia)) as (hs' & Hhs' & Hq).
  exists hs'. split; [done|].
  rewrite !drop_0, take_0 in Hq. cbn [app] in Hq.
  change (Z.of_nat 0) with 0 in Hq.
  cbn [completes]. cbn [converting_handler]. unfold tuple_handler at 1.
  cbn [default_value]. rewrite bool_decide_eq_true_2 by lia.
  match goal with
  | |- context [match ?l ++ [?e] with _ => _ end] =>
      destruct (l ++ [e]) eqn:Happ;
        [apply app_eq_nil in Happ; destruct Happ; discriminate|];
      rewrite <- Happ; clear Happ
  end.
  change (tuple_handler (map converting_handler Ts))
    with (converting_handler (tuple Ts)).
  rewrite (completes_app _ _ [on_array_end n] _ _ _ _ ltac:(done) Hq).
  cbn [completes converting_handler].
  destruct (decide (length vs = length Ts)) as [Hfull|Hshort].
  - unfold tuple_handler. rewrite length_map.
    rewrite bool_decide_eq_false_2 by lia.
    by rewrite bool_decide_eq_true_2 by lia.
  - pose proof (Forall2_length _ _ _ Hhs') as Hlenh.
    destruct (lookup_lt_is_Some_2 Ts (length vs) ltac:(lia)) as [T HT].
    destruct (lookup_lt_is_Some_2 hs' (length vs) ltac:(lia)) as [hi Hhi].
    pose proof (Forall_lookup_1 _ _ _ _ HTs HT) as [_ Hend].
    pose proof (Forall2_lookup_lr _ _ _ _ _ _ Hhs' HT Hhi) as HhiT.
    assert ((vs ++ drop (length vs) (map default_value Ts)) !! length vs
            = Some (default_value T)) as Hy.
    { rewrite lookup_app_r by lia. rewrite lookup_drop.
      replace (length vs + (length vs - length vs))%nat with (length vs)
        by lia.
      rewrite list_lookup_fmap. by rewrite HT. }
    assert (map converting_handler Ts !! length vs
            = Some (converting_handler T)) as Hf
      by (by rewrite list_lookup_fmap, HT).
    rewrite (tuple_handler_active _ _ _ _ _ _ _ _ Hf Hhi Hy).
    rewrite (Hend _ n HhiT). by rewrite !list_insert_id.
Qed.

Lemma tuple_reads_back (Ts : list ty) :
  Forall reads_back Ts → reads_back (tuple Ts).
Proof.
  intros HTs. split.
  - intros h x Hidle Hx.
    inversion Hidle as [| | | | | | | |? hs Hhs| |]; subst.
    inversion Hx as [| | | | | | | |? vs Hvs| | |]; subst.
    pose proof (Forall2_length _ _ _ Hvs) as Hlen.
    destruct (tuple_reads_prefix Ts vs (N.of_nat (length vs)) hs HTs)
      as (hs' & Hhs' & Hc); [by rewrite <- Hlen, take_ge by lia|done|lia|].
    exists (tuple_members hs' (-1)). split; [by constructor|].
    rewrite drop_ge, app_nil_r in Hc by (rewrite length_map; lia).
    exact Hc.
  - intros h n Hidle.
    by inversion Hidle as [| | | | | | | |? hs Hhs| |]; subst.
Qed.

(** A described class handler with a member selected hands every event to
    the handler of that member, whose target is that member. *)
Lemma described_class_handler_active (names : list string)
    (inners : list step) (e : event) (i : nat) (f : step) (key_ : string)
    (hs : list handler) (hi : handler) (fields : list value) (y : value) :
  inners !! i = Some f → hs !! i = Some hi → fields !! i = Some y →
  described_class_handler names inners e
    (class_members key_ hs (Z.of_nat i)) (VStruct fields)
  = (let '(hi', y', o) := f e hi y in
     match o with
     | Success (Some signal_value) =>
         (class_members "" (<[i:=hi']> hs) (-1), VStruct (<[i:=y']> fields),
          Success None)
     | Success (Some signal_end) =>
         (class_members "" (<[i:=hi']> hs) (-1), VStruct (<[i:=y']> fields),
          Success (Some signal_value))
     | _ =>
         (class_members key_ (<[i:=hi']> hs) (Z.of_nat i),
          VStruct (<[i:=y']> fields), o)
     end).
Proof.
  intros Hf Hhi Hy.
  unfold described_class_handler. cbv zeta.
  change (@lookup nat (event → handler → value → handler * value * outcome))
    with (@lookup nat step).
  rewrite Nat2Z.id, Hf, Hhi, Hy.
  rewrite (bool_decide_eq_false_2 (Z.of_nat i < 0)) by lia.
  rewrite (bool_decide_eq_true_2 (Z.of_nat i >= 0)) by lia.
  destruct e; destruct (f _ hi y) as [[? ?] [[[]|]| |]]; reflexivity.
Qed.

Lemma described_class_handler_value (names : list string)
    (inners : list step) (es : list event) (i : nat) (f : step)
    (key_ : string) (hs : list handler) (hi hi' : handler)
    (fields : list value) (y x : value) :
  inners !! i = Some f → hs !! i = Some hi → fields !! i = Some y →
  completes f es hi y = Some (hi', x) →
  quiet (described_class_handler names inners) es
    (class_members key_ hs (Z.of_nat i)) (VStruct fields)
  = Some (class_members "" (<[i:=hi']> hs) (-1), VStruct (<[i:=x]> fields)).
Proof.
  intros Hf. revert hs hi fields y. induction es as [|e es IH];
    intros hs hi fields y Hhi Hy Hc; [done|].
  pose proof (lookup_lt_Some _ _ _ Hhi). pose proof (lookup_lt_Some _ _ _ Hy).
  cbn [completes quiet] in *.
  rewrite (described_class_handler_active _ _ _ _ _ _ _ _ _ _ Hf Hhi Hy).
  destruct (f e hi y) as [[h1 y1] [[[]|]| |]]; try done.
  - by destruct es; simplify_eq/=.
  - destruct es as [|e' es]; [done|].
    rewrite (IH (<[i:=h1]> hs) h1 (<[i:=y1]> fields) y1);
      [|by apply list_lookup_insert_eq..|done].
    by rewrite !list_insert_insert_eq.
Qed.

(** The name of member [i] as a key and then the events of one value, given
    to a described class handler between two members, fill member [i]. *)
Lemma described_class_handler_member (names : list string)
    (inners : list step) (es : list event) (i : nat) (name : string) (n : N)
    (f : step) (hs : list handler) (hi hi' : handler) (fields : list value)
    (y x : value) :
  NoDup names → names !! i = Some name →
  inners !! i = Some f → hs !! i = Some hi → fields !! i = Some y →
  completes f es hi y = Some (hi', x) →
  quiet (described_class_handler names inners) (on_key name n :: es)
    (class_members "" hs (-1)) (VStruct fields)
  = Some (class_members "" (<[i:=hi']> hs) (-1), VStruct (<[i:=x]> fields)).
Proof.
  intros Hnd Hname Hf Hhi Hy Hc.
  cbn [quiet]. unfold described_class_handler at 1.
  rewrite (bool_decide_eq_false_2 (-1 >= 0)) by lia. cbv zeta.
  change ("" +:+ name) with name.
  rewrite (for_each_member_last_match names name (-1) i Hname).
  - rewrite bool_decide_eq_false_2 by lia.
    by eapply described_class_handler_value.
  - intros j Hj Hname'. pose proof (NoDup_lookup _ _ _ _ Hnd Hname Hname'). lia.
Qed.

(** What a run of assignments leaves at a position. *)
Lemma lookup_foldl_insert (g : nat → value) (order : list nat)
    (fields : list value) (j : nat) :
  foldl (λ fs i, <[i:=g i]> fs) fields order !! j
  = match fields !! j with
    | Some y => Some (if decide (j ∈ order) then g j else y)
    | None => None
    end.
Proof.
  revert fields. induction order as [|i order IH]; intros fields.
  - simpl. by destruct (fields !! j).
  - cbn [foldl]. rewrite IH.
    destruct (decide (i = j)) as [->|Hne].
    + destruct (fields !! j) as [y|] eqn:E.
      * rewrite list_lookup_insert_eq by by eapply lookup_lt_Some.
        repeat case_decide; try done.
        all: exfalso; match goal with H : _ ∉ _ :: _ |- _ => apply H end;
          by left.
      * rewrite list_insert_ge by by apply lookup_ge_None. by rewrite E.
    + rewrite list_lookup_insert_ne by done.
      destruct (fields !! j) as [y|]; [|done].
      repeat case_decide; try done; exfalso.
      all: first
        [ match goal with H : _ ∉ _ :: _ |- _ => apply H end; by right
        | match goal with H : _ ∈ _ :: _ |- _ =>
            apply elem_of_cons in H as [?|?] end; done ].
Qed.

Lemma described_class_reads_members (Dm : list (string * ty))
    (vs : list value) (order : list nat) (hs : list handler)
    (fields : list value) :
  NoDup Dm.*1 → Forall (λ D, reads_back D.2) Dm →
  Forall2 (λ D, has_type D.2) Dm vs → Forall2 (λ D, idle D.2) Dm hs →
  NoDup order →
  (∀ i, i ∈ order →
     ∃ D, Dm !! i = Some D ∧ fields !! i = Some (default_value D.2)) →
  ∃ hs', Forall2 (λ D, idle D.2) Dm hs'
    ∧ quiet (converting_handler (described_class Dm))
        (mjoin (map (member_events Dm vs) order))
        (class_members "" hs (-1)) (VStruct fields)
      = Some (class_members "" hs' (-1),
              VStruct (foldl (λ fs i, <[i:=default VNull (vs !! i)]> fs)
                         fields order)).
Proof.
  intros Hnd Hread Hvs. revert hs fields.
  pose proof (Forall2_length _ _ _ Hvs) as Hlen.
  induction order as [|i order IH]; intros hs fields Hhs Hord Hfields.
  - by exists hs.
  - pose proof (Forall2_length _ _ _ Hhs) as Hlenh.
    apply NoDup_cons in Hord as [Hi Hord].
    destruct (Hfields i) as ([name T] & HD & Hy); [by left|].
    pose proof (lookup_lt_Some _ _ _ HD) as HiN.
    destruct (lookup_lt_is_Some_2 vs i ltac:(lia)) as [x Hx].
    destruct (lookup_lt_is_Some_2 hs i ltac:(lia)) as [hi Hhi].
    pose proof (Forall_lookup_1 _ _ _ _ Hread HD) as [HreadT _].
    pose proof (Forall2_lookup_lr _ _ _ _ _ _ Hvs HD Hx) as HxT.
    pose proof (Forall2_lookup_lr _ _ _ _ _ _ Hhs HD Hhi) as HhiT.
    destruct (HreadT _ _ HhiT HxT) as (hi' & Hidle' & Hc).
    destruct (IH (<[i:=hi']> hs) (<[i:=x]> fields)) as (hs' & Hhs' & Hq);
      [|done| |].
    { rewrite <- (list_insert_id Dm i _ HD). by apply Forall2_insert. }
    { intros j Hj. destruct (Hfields j) as (D & HDj & Hyj); [by right|].
      exists D. split; [done|].
      rewrite list_lookup_insert_ne by (intros ->; done). done. }
    exists hs'. split; [done|].
    cbn [map mjoin list_join foldl]. rewrite quiet_app.
    unfold member_events at 1. rewrite HD, Hx. cbn [fst snd].
    cbn [converting_handler] in *.
    rewrite (described_class_handler_member _ _ _ i name _
               (converting_handler T) hs hi hi' fields (default_value T) x);
      [|done|by rewrite list_lookup_fmap, HD
       |by rewrite list_lookup_fmap, HD|done..].
    cbn beta iota. exact Hq.
Qed.

(** Assigning every position once, in any order, gives the list of the
    values assigned. *)
Lemma foldl_insert_all (vs fields : list value) (order : list nat) :
  length fields = length vs → order ≡ₚ seq 0 (length vs) →
  foldl (λ fs i, <[i:=default VNull (vs !! i)]> fs) fields order = vs.
Proof.
  intros Hlen Hperm. apply list_eq. intros j.
  rewrite lookup_foldl_insert.
  destruct (decide (j < length vs)%nat) as [Hj|Hj].
  - destruct (lookup_lt_is_Some_2 fields j ltac:(lia)) as [y ->].
    destruct (lookup_lt_is_Some_2 vs j Hj) as [x Hx].
    rewrite decide_True; [by rewrite Hx|].
    rewrite Hperm. apply elem_of_seq. lia.
  - rewrite !lookup_ge_None_2 by lia. done.
Qed.

Lemma zip_with_member_events (Dm : list (string * ty)) (vs : list value) :
  length Dm = length vs →
  zip_with
    (λ D x, on_key D.1 (N.of_nat (String.length D.1)) :: events_of D.2 x)
    Dm vs
  = map (member_events Dm vs) (seq 0 (length Dm)).
Proof.
  intros Hlen. apply list_eq. intros j.
  rewrite lookup_zip_with, list_lookup_fmap.
  destruct (decide (j < length Dm)%nat) as [Hj|Hj].
  - rewrite lookup_seq_lt by done. change (0 + j)%nat with j.
    destruct (lookup_lt_is_Some_2 Dm j Hj) as [D HD].
    destruct (lookup_lt_is_Some_2 vs j ltac:(lia)) as [x Hx].
    unfold member_events. cbn [fmap option_fmap option_map]. by rewrite HD, Hx.
  - rewrite lookup_seq_ge by lia. by rewrite (lookup_ge_None_2 Dm) by lia.
Qed.

(** The members of a described class given in any order, each at most once,
    between [on_object_begin] and [on_object_end]: the members given are
    filled, the others stay as initialized, and the object is complete. *)
Lemma described_class_reads_any_order (Dm : list (string * ty))
    (vs : list value) (order : list nat) (n : N) (hs : list handler) :
  NoDup Dm.*1 → Forall (λ D, reads_back D.2) Dm →
  Forall2 (λ D, has_type D.2) Dm vs → Forall2 (λ D, idle D.2) Dm hs →
  NoDup order → (∀ i, i ∈ order → (i < length Dm)%nat) →
  ∃ hs', Forall2 (λ D, idle D.2) Dm hs'
    ∧ completes (converting_handler (described_class Dm))
        (on_object_begin :: mjoin (map (member_events Dm vs) order)
           ++ [on_object_end n])
        (class_members "" hs (-1)) (default_value (described_class Dm))
      = Some (class_members "" hs' (-1),
              VStruct (foldl (λ fs i, <[i:=default VNull (vs !! i)]> fs)
                         (map (λ D, default_value D.2) Dm) order)).
Proof.
  intros Hnd Hread Hvs Hhs Hord Hlt.
  destruct (described_class_reads_members Dm vs order hs
              (map (λ D, default_value D.2) Dm) Hnd Hread Hvs Hhs Hord)
    as (hs' & Hhs' & Hq).
  { intros i Hi. destruct (lookup_lt_is_Some_2 Dm i (Hlt i Hi)) as [D HD].
    exists D. split; [done|]. by rewrite list_lookup_fmap, HD. }
  exists hs'. split; [done|].
  cbn [completes]. cbn [converting_handler].
  unfold described_class_handler at 1.
  cbn [default_value]. rewrite bool_decide_eq_true_2 by lia.
  match goal with
  | |- context [match ?l ++ [?e] with _ => _ end] =>
      destruct (l ++ [e]) eqn:Happ;
        [apply app_eq_nil in Happ; destruct Happ; discriminate|];
      rewrite <- Happ; clear Happ
  end.
  change (described_class_handler (map fst Dm)
            (map (λ D, converting_handler D.2) Dm))
    with (converting_handler (described_class Dm)).
  rewrite (completes_app _ _ [on_object_end n] _ _ _ _ ltac:(done) Hq).
  cbn [completes converting_handler]. unfold described_class_handler.
  by rewrite bool_decide_eq_true_2 by lia.
Qed.

Lemma described_class_reads_back (Dm : list (string * ty)) :
  NoDup Dm.*1 → Forall (λ D, reads_back D.2) Dm →
  reads_back (described_class Dm).
Proof.
  intros Hnd HDm. split.
  - intros h x Hidle Hx.
    inversion Hidle as [| | | | | | | | |? hs Hhs|]; subst.
    inversion Hx as [| | | | | | | | |? vs Hvs| |]; subst.
    pose proof (Forall2_length _ _ _ Hvs) as Hlen.
    destruct (described_class_reads_any_order Dm vs (seq 0 (length Dm))
                (N.of_nat (length vs)) hs Hnd HDm Hvs Hhs)
      as (hs' & Hhs' & Hc).
    { apply NoDup_seq. }
    { intros i Hi%elem_of_seq. lia. }
    exists (class_members "" hs' (-1)). split; [by constructor|].
    cbn [events_of]. rewrite zip_with_member_events by done.
    rewrite foldl_insert_all in Hc; [done|by rewrite length_map|by rewrite Hlen].
  - intros h n Hidle.
    by inversion Hidle as [| | | | | | | | |? hs Hhs|]; subst.
Qed.

(** An optional of a scalar that a single event other than [on_null]
    overwrites. *)
Lemma optional_reads_back (T : ty) :
  (∀ h, idle T h → h = scalar_members) →
  (∀ x inner_value_, has_type T x →
     ∃ e, events_of T x = [e] ∧ e ≠ on_null ∧ (∀ n, e ≠ on_array_end n)
          ∧ converting_handler T e scalar_members inner_value_
            = (scalar_members, x, Success (Some signal_value))) →
  reads_back (optional T).
Proof.
  intros Hscalar Hset. split.
  - intros h x Hidle Hx.
    inversion Hidle as [| | | | | | | | | |? iv inner_ Hinner]; subst.
    pose proof (Hscalar _ Hinner) as ->.
    inversion Hx as [| | | | | | | | | |?|? y Hy]; subst.
    + exists (optional_members iv scalar_members false).
      split; [by constructor|reflexivity].
    + destruct (Hset y iv Hy) as (e & He & Hnull & Hend & Hev).
      pose proof (optional_handler_present T e iv y scalar_members
                    scalar_members false (default_value (optional T))
                    Hnull Hend Hev) as Hopt.
      exists (optional_members (moved_from y) scalar_members false).
      split; [by constructor|].
      cbn [events_of]. rewrite He. cbn [completes]. by rewrite Hopt.
  - intros h n Hidle.
    by inversion Hidle as [| | | | | | | | | |? iv inner_ Hinner]; subst.
Qed.

Lemma round_trips_reads_back (t : ty) : round_trips t → reads_back t.
Proof.
  induction t as [V|F| | | |De|T IH|T IH|Ts IH|Dm IH|T IH] using ty_nested_ind;
    intros Hrt.
  - inversion Hrt; subst. by apply integral_reads_back.
  - exact (scalar_reads_back (floating_point F)).
  - exact (scalar_reads_back string_like).
  - exact (scalar_reads_back boolean).
  - exact (scalar_reads_back null_like).
  - inversion Hrt.
  - inversion Hrt; subst. by apply sequence_reads_back, IH.
  - inversion Hrt; subst. by apply map_like_reads_back, IH.
  - inversion Hrt as [| | | | | | |? HTs| | | |]; subst.
    apply tuple_reads_back. rewrite Forall_forall in *. auto.
  - inversion Hrt as [| | | | | | | |? Hnd HDm| | |]; subst.
    apply described_class_reads_back; [done|].
    rewrite Forall_forall in *. auto.
  - inversion Hrt as [| | | | | | | | |V Hw| |]; subst.
    + apply optional_reads_back; [by inversion 1|].
      intros x iv Hx. inversion Hx as [? z Hz| | | | | | | | | | |]; subst.
      destruct (numeric_limits_bounds V Hw) as (Hmin & Hmax & Hmax').
      cbn [events_of]. change (numeric_limits_max int64_t) with (2 ^ 63 - 1).
      case_bool_decide; eexists; (split; [done|]); split_and!; try done.
      * rewrite (integral_handler_on_int64 V Hw) by lia.
        by rewrite bool_decide_eq_true_2.
      * rewrite (integral_handler_on_uint64 V Hw) by lia.
        by rewrite bool_decide_eq_true_2.
    + apply optional_reads_back; [by inversion 1|].
      intros x iv Hx. inversion Hx as [|? [] Hof| | | | | | | | | |]; subst.
      all: eexists; (split; [done|]); split_and!; done.
    + apply optional_reads_back; [by inversion 1|].
      intros x iv Hx. inversion Hx; subst.
      eexists; (split; [done|]); split_and!; done.
Qed.

(** X9.  Writing out and reading back.  For every type made of integral
    types of at most 64 bits, floating point, strings, booleans and null by
    sequences, maps, tuples, described classes with distinct member names and
    optionals of a number or boolean, and every value of the type: the events
    of the value, given to the handler as constructed and the
    value-initialized target, all succeed, call [signal_value] on the parent
    once, at the last event, and leave the target equal to the value; the
    same events between [on_document_begin] and [on_document_end] make the
    top handler end without error with that target.  A floating-point value
    is the conversion of a number to its type, and is written out as that
    number. *)
Theorem written_out_reads_back (t : ty) (v : value) :
  round_trips t → has_type t v →
  ∃ h', idle t h'
    ∧ feed (converting_handler t) (events_of t v) (make_handler t)
        (default_value t) []
      = Run h' v [signal_value] None
    ∧ parse t (on_document_begin :: map forwarded (events_of t v)
                 ++ [on_document_end])
        (make_into_handler t) (default_value t)
      = (IntoMembers h' false, v, None)
    ∧ completes (converting_handler t) (events_of t v) (make_handler t)
        (default_value t)
      = Some (h', v).
Proof.
  intros Hrt Hv.
  destruct (round_trips_reads_back t Hrt) as [Hread _].
  destruct (Hread _ _ (make_handler_idle t) Hv) as (h' & Hidle & Hc).
  pose proof (completes_feed _ _ [] _ _ _ _ [] Hc) as Hfeed.
  rewrite app_nil_r in Hfeed. cbn [feed app] in Hfeed.
  exists h'. split_and!; [done|done| |done].
  cbn [parse into_handler]. unfold make_into_handler.
  rewrite (parse_forwarded t _ [on_document_end] _ _ []).
  by rewrite Hfeed.
Qed.

Lemma written_out_reads_back_witness :
  round_trips
    (described_class
       [("id", integral int32_t); ("tags", sequence string_like);
        ("at", tuple [floating_point double_t; optional boolean]);
        ("n", map_like (integral uint8_t))])
  ∧ has_type
      (described_class
         [("id", integral int32_t); ("tags", sequence string_like);
          ("at", tuple [floating_point double_t; optional boolean]);
          ("n", map_like (integral uint8_t))])
      (VStruct
         [VInt (-7); VSeq [VString "a"; VString "b"];
          VTuple
            [VFloating (floating_of_double double_t (double_literal 0));
             VOpt (Some (VBool true))];
          VMap {[ "k" := VInt 255 ]}])
  ∧ ∃ h',
      feed
        (converting_handler
           (described_class
              [("id", integral int32_t); ("tags", sequence string_like);
               ("at", tuple [floating_point double_t; optional boolean]);
               ("n", map_like (integral uint8_t))]))
        (events_of
           (described_class
              [("id", integral int32_t); ("tags", sequence string_like);
               ("at", tuple [floating_point double_t; optional boolean]);
               ("n", map_like (integral uint8_t))])
           (VStruct
              [VInt (-7); VSeq [VString "a"; VString "b"];
               VTuple
                 [VFloating (floating_of_double double_t (double_literal 0));
                  VOpt (Some (VBool true))];
               VMap {[ "k" := VInt 255 ]}]))
        (make_handler
           (described_class
              [("id", integral int32_t); ("tags", sequence string_like);
               ("at", tuple [floating_point double_t; optional boolean]);
               ("n", map_like (integral uint8_t))]))
        (default_value
           (described_class
              [("id", integral int32_t); ("tags", sequence string_like);
               ("at", tuple [floating_point double_t; optional boolean]);
               ("n", map_like (integral uint8_t))]))
        []
      = Run h'
          (VStruct
             [VInt (-7); VSeq [VString "a"; VString "b"];
              VTuple
                [VFloating (floating_of_double double_t (double_literal 0));
                 VOpt (Some (VBool true))];
              VMap {[ "k" := VInt 255 ]}])
          [signal_value] None.
Proof.
  assert (round_trips
    (described_class
       [("id", integral int32_t); ("tags", sequence string_like);
        ("at", tuple [floating_point double_t; optional boolean]);
        ("n", map_like (integral uint8_t))])) as Hrt.
  { constructor.
    - apply (bool_decide_unpack _). vm_compute. exact I.
    - repeat constructor; simpl; lia. }
  assert (has_type
      (described_class
         [("id", integral int32_t); ("tags", sequence string_like);
          ("at", tuple [floating_point double_t; optional boolean]);
          ("n", map_like (integral uint8_t))])
      (VStruct
         [VInt (-7); VSeq [VString "a"; VString "b"];
          VTuple
            [VFloating (floating_of_double double_t (double_literal 0));
             VOpt (Some (VBool true))];
          VMap {[ "k" := VInt 255 ]}])) as Hv.
  { constructor. constructor; [constructor; limits|].
    constructor; [repeat constructor|].
    constructor; [repeat constructor|].
    constructor; [|constructor].
    constructor. apply map_Forall_singleton. constructor. limits. }
  split; [exact Hrt|]. split; [exact Hv|].
  destruct (written_out_reads_back _ _ Hrt Hv) as (h' & _ & Hfeed & _).
  exists h'. exact Hfeed.
Defined.

(** ** What the composites do with what the target already holds *)

(** X10.  A sequence handler appends.  For an element type [T] that reads
    back ([round_trips T], which leaves out enums): the handler as
    constructed, given [on_array_begin], the events of any values of type
    [T] and [on_array_end], leaves the target, whatever sequence [acc] it
    held before, holding [acc] followed by those values in the order of the
    stream, calls [signal_value] once and ends idle.  The target is not
    cleared first. *)
Theorem sequence_handler_appends
    (T : ty) (xs acc : list value) (n : N) :
  round_trips T → Forall (has_type T) xs →
  ∃ h', idle (sequence T) h'
    ∧ feed (converting_handler (sequence T))
        (on_array_begin :: mjoin (map (events_of T) xs) ++ [on_array_end n])
        (make_handler (sequence T)) (VSeq acc) []
      = Run h' (VSeq (acc ++ xs)) [signal_value] None.
Proof.
  intros Hrt Hxs. pose proof (round_trips_reads_back T Hrt) as HT.
  destruct (sequence_reads_elements T xs acc (make_handler T) HT
              (make_handler_idle T) Hxs) as (inner1 & Hidle1 & Hq).
  exists (sequence_members (default_value T) inner1 false).
  split; [by constructor|].
  cbn [feed make_handler]. cbn [converting_handler sequence_handler].
  cbn [option_list app].
  change (sequence_handler T (converting_handler T))
    with (converting_handler (sequence T)).
  rewrite (quiet_feed _ _ [on_array_end n] _ _ _ _ _ Hq).
  cbn [feed converting_handler]. rewrite sequence_handler_active.
  destruct HT as [_ Hend]. by rewrite (Hend _ _ Hidle1).
Qed.

(** X11.  A map handler keeps what is there.  For a mapped type [T] that
    reads back ([round_trips T], which leaves out enums): the handler as
    constructed, given [on_object_begin], any entries, each a key and the
    events of a value of type [T], and [on_object_end], calls [signal_value]
    once, ends idle, and leaves under every key what the target, whatever
    map [m] it was, held under it before, and where it held nothing, the
    first value the stream gives for the key.  Later values for a key and
    values for keys already in the target are dropped. *)
Theorem map_like_handler_keeps_first
    (T : ty) (kxs : list (string * value)) (m : gmap string value) (n : N) :
  round_trips T → Forall (λ kx, has_type T kx.2) kxs →
  ∃ h' m', idle (map_like T) h'
    ∧ feed (converting_handler (map_like T))
        (on_object_begin
           :: mjoin (map (λ kx, on_key kx.1 (N.of_nat (String.length kx.1))
                                  :: events_of T kx.2) kxs)
           ++ [on_object_end n])
        (make_handler (map_like T)) (VMap m) []
      = Run h' (VMap m') [signal_value] None
    ∧ ∀ key, m' !! key = match m !! key with
                         | Some y => Some y
                         | None => first_with_key key kxs
                         end.
Proof.
  intros Hrt Hxs. pose proof (round_trips_reads_back T Hrt) as HT.
  destruct (map_like_reads_entries T kxs m (make_handler T) HT
              (make_handler_idle T) Hxs) as (inner1 & Hidle1 & Hq).
  exists (map_members "" (default_value T) inner1 false),
    (foldl (λ m kx, emplace kx.1 kx.2 m) m kxs).
  split; [by constructor|]. split; [|apply lookup_foldl_emplace].
  cbn [feed make_handler]. cbn [converting_handler map_like_handler].
  cbn [option_list app].
  change (map_like_handler T (converting_handler T))
    with (converting_handler (map_like T)).
  by rewrite (quiet_feed _ _ [on_object_end n] _ _ _ _ _ Hq).
Qed.

(** X12.  A tuple given too few elements is not an error.  For a tuple
    whose element types read back ([round_trips (tuple Ts)], which leaves
    out enums), the handler as constructed and the value-initialized target:
    given [on_array_begin], the events of values for the first elements,
    however many up to the arity, and [on_array_end], the tuple handler
    succeeds, fills those elements, leaves the others value-initialized,
    calls [signal_value] once and ends idle. *)
Theorem tuple_handler_fills_prefix
    (Ts : list ty) (vs : list value) (n : N) :
  round_trips (tuple Ts) → (length vs ≤ length Ts)%nat →
  Forall2 has_type (take (length vs) Ts) vs →
  ∃ h', idle (tuple Ts) h'
    ∧ feed (converting_handler (tuple Ts))
        (on_array_begin :: mjoin (zip_with events_of Ts vs)
           ++ [on_array_end n])
        (make_handler (tuple Ts)) (default_value (tuple Ts)) []
      = Run h'
          (VTuple (vs ++ drop (length vs) (map default_value Ts)))
          [signal_value] None.
Proof.
  intros Hrt Hlen Hvs.
  inversion Hrt as [| | | | | | |? HTs| | | |]; subst.
  assert (Forall reads_back Ts) as Hread.
  { eapply Forall_impl; [exact HTs|]. apply round_trips_reads_back. }
  pose proof (make_handler_idle (tuple Ts)) as Hidle.
  inversion Hidle as [| | | | | | | |? hs Hhs| |]; subst.
  destruct (tuple_reads_prefix Ts vs n _ Hread Hvs Hhs Hlen)
    as (hs' & Hhs' & Hc).
  exists (tuple_members hs' (-1)). split; [by constructor|].
  pose proof (completes_feed _ _ [] _ _ _ _ [] Hc) as Hfeed.
  rewrite app_nil_r in Hfeed. exact Hfeed.
Qed.

(** X13.  The members of a described class may come in any order and need
    not all come.  For a described class with distinct member names whose
    member types read back ([round_trips (described_class Dm)], which leaves
    out enums), the handler as constructed and the value-initialized target:
    given [on_object_begin], then for some members, each at most once and in
    any order, the name as a key and the events of a value of the member's
    type, then [on_object_end], the handler succeeds, calls [signal_value]
    once, ends idle, and leaves every member that was given holding its
    value and every other member value-initialized.  When every member is
    given the target is the list of the values. *)
Theorem described_class_handler_any_order
    (Dm : list (string * ty)) (vs : list value) (order : list nat) (n : N) :
  round_trips (described_class Dm) → Forall2 (λ D, has_type D.2) Dm vs →
  NoDup order → (∀ i, i ∈ order → (i < length Dm)%nat) →
  ∃ h' fs, idle (described_class Dm) h'
    ∧ feed (converting_handler (described_class Dm))
        (on_object_begin :: mjoin (map (member_events Dm vs) order)
           ++ [on_object_end n])
        (make_handler (described_class Dm))
        (default_value (described_class Dm)) []
      = Run h' (VStruct fs) [signal_value] None
    ∧ (∀ j D x, Dm !! j = Some D → vs !! j = Some x →
         fs !! j = Some (if decide (j ∈ order) then x else default_value D.2))
    ∧ (order ≡ₚ seq 0 (length Dm) → fs = vs).
Proof.
  intros Hrt Hvs Hord Hlt.
  inversion Hrt as [| | | | | | | |? Hnd HDm| | |]; subst.
  assert (Forall (λ D, reads_back D.2) Dm) as Hread.
  { eapply Forall_impl; [exact HDm|]. intros D. apply round_trips_reads_back. }
  pose proof (make_handler_idle (described_class Dm)) as Hidle.
  inversion Hidle as [| | | | | | | | |? hs Hhs|]; subst.
  pose proof (Forall2_length _ _ _ Hvs) as Hlen.
  destruct (described_class_reads_any_order Dm vs order n _ Hnd Hread Hvs Hhs
              Hord Hlt) as (hs' & Hhs' & Hc).
  exists (class_members "" hs' (-1)),
    (foldl (λ fs i, <[i:=default VNull (vs !! i)]> fs)
       (map (λ D, default_value D.2) Dm) order).
  split; [by constructor|]. split_and!.
  - pose proof (completes_feed _ _ [] _ _ _ _ [] Hc) as Hfeed.
    rewrite app_nil_r in Hfeed. exact Hfeed.
  - intros j D x HD Hx. rewrite lookup_foldl_insert, list_lookup_fmap, HD, Hx.
    done.
  - intros Hperm. apply foldl_insert_all; [by rewrite length_map|].
    by rewrite <- Hlen.
Qed.

Lemma sequence_handler_appends_witness :
  round_trips string_like
  ∧ Forall (has_type string_like) [VString "b"; VString "c"]
  ∧ ∃ h',
      feed (converting_handler (sequence string_like))
        [on_array_begin; on_string "b" 1; on_string "c" 1; on_array_end 2]
        (make_handler (sequence string_like)) (VSeq [VString "a"]) []
      = Run h' (VSeq [VString "a"; VString "b"; VString "c"])
          [signal_value] None.
Proof.
  assert (round_trips string_like) as Hrt by constructor.
  assert (Forall (has_type string_like) [VString "b"; VString "c"]) as Hxs
    by repeat constructor.
  split; [exact Hrt|]. split; [exact Hxs|].
  destruct (sequence_handler_appends string_like [VString "b"; VString "c"]
              [VString "a"] 2 Hrt Hxs) as (h' & _ & Hfeed).
  exists h'. exact Hfeed.
Defined.

Lemma map_like_handler_keeps_first_witness :
  round_trips (integral int32_t)
  ∧ Forall (λ kx : string * value, has_type (integral int32_t) kx.2)
      [("a", VInt 1); ("b", VInt 2); ("a", VInt 3)]
  ∧ ∃ h' m',
      feed (converting_handler (map_like (integral int32_t)))
        [on_object_begin; on_key "a" 1; on_int64 1 ""; on_key "b" 1;
         on_int64 2 ""; on_key "a" 1; on_int64 3 ""; on_object_end 3]
        (make_handler (map_like (integral int32_t)))
        (VMap {[ "b" := VInt 9 ]}) []
      = Run h' (VMap m') [signal_value] None
      ∧ m' !! "a" = Some (VInt 1) ∧ m' !! "b" = Some (VInt 9).
Proof.
  assert (round_trips (integral int32_t)) as Hrt
    by (constructor; simpl; lia).
  assert (Forall (λ kx : string * value, has_type (integral int32_t) kx.2)
            [("a", VInt 1); ("b", VInt 2); ("a", VInt 3)]) as Hxs
    by (repeat constructor; limits).
  split; [exact Hrt|]. split; [exact Hxs|].
  destruct (map_like_handler_keeps_first (integral int32_t)
              [("a", VInt 1); ("b", VInt 2); ("a", VInt 3)]
              {[ "b" := VInt 9 ]} 3 Hrt Hxs)
    as (h' & m' & _ & Hfeed & Hlookup).
  exists h', m'. split; [exact Hfeed|].
  split; [exact (Hlookup "a")|exact (Hlookup "b")].
Defined.

Lemma tuple_handler_fills_prefix_witness :
  round_trips (tuple [integral int32_t; string_like; boolean])
  ∧ (length [VInt 5] ≤ length [integral int32_t; string_like; boolean])%nat
  ∧ Forall2 has_type
      (take (length [VInt 5]) [integral int32_t; string_like; boolean])
      [VInt 5]
  ∧ ∃ h',
      feed (converting_handler (tuple [integral int32_t; string_like; boolean]))
        [on_array_begin; on_int64 5 ""; on_array_end 1]
        (make_handler (tuple [integral int32_t; string_like; boolean]))
        (default_value (tuple [integral int32_t; string_like; boolean])) []
      = Run h' (VTuple [VInt 5; VString ""; VBool false]) [signal_value] None.
Proof.
  assert (round_trips (tuple [integral int32_t; string_like; boolean]))
    as Hrt by (repeat constructor; simpl; lia).
  assert (length [VInt 5]
          ≤ length [integral int32_t; string_like; boolean])%nat as Hlen
    by (simpl; lia).
  assert (Forall2 has_type
            (take (length [VInt 5]) [integral int32_t; string_like; boolean])
            [VInt 5]) as Hvs by (repeat constructor; limits).
  split; [exact Hrt|]. split; [exact Hlen|]. split; [exact Hvs|].
  destruct (tuple_handler_fills_prefix
              [integral int32_t; string_like; boolean] [VInt 5] 1
              Hrt Hlen Hvs) as (h' & _ & Hfeed).
  exists h'. exact Hfeed.
Defined.

Lemma described_class_handler_any_order_witness :
  round_trips (described_class [("x", integral int32_t); ("y", string_like)])
  ∧ Forall2 (λ D : string * ty, has_type D.2)
      [("x", integral int32_t); ("y", string_like)] [VInt 1; VString "s"]
  ∧ NoDup [1; 0]%nat
  ∧ ∃ h',
      feed
        (converting_handler
           (described_class [("x", integral int32_t); ("y", string_like)]))
        [on_object_begin; on_key "y" 1; on_string "s" 1; on_key "x" 1;
         on_int64 1 ""; on_object_end 2]
        (make_handler
           (described_class [("x", integral int32_t); ("y", string_like)]))
        (default_value
           (described_class [("x", integral int32_t); ("y", string_like)]))
        []
      = Run h' (VStruct [VInt 1; VString "s"]) [signal_value] None.
Proof.
  assert (round_trips
            (described_class [("x", integral int32_t); ("y", string_like)]))
    as Hrt.
  { constructor.
    - apply (bool_decide_unpack _). vm_compute. exact I.
    - repeat constructor; simpl; lia. }
  assert (Forall2 (λ D : string * ty, has_type D.2)
            [("x", integral int32_t); ("y", string_like)]
            [VInt 1; VString "s"]) as Hvs by (repeat constructor; limits).
  assert (NoDup [1; 0]%nat) as Hnd.
  { apply (bool_decide_unpack _). vm_compute. exact I. }
  assert (∀ i : nat, i ∈ [1; 0]%nat
            → (i < length [("x", integral int32_t); ("y", string_like)])%nat)
    as Hlt.
  { intros i Hi. apply list_elem_of_In in Hi. simpl in *.
    destruct Hi as [<-|[<-|[]]]; lia. }
  split; [exact Hrt|]. split; [exact Hvs|]. split; [exact Hnd|].
  destruct (described_class_handler_any_order
              [("x", integral int32_t); ("y", string_like)]
              [VInt 1; VString "s"] [1; 0]%nat 2 Hrt Hvs Hnd Hlt)
    as (h' & fs & _ & Hfeed & _ & Hall).
  exists h'. rewrite <- (Hall (perm_swap 0%nat 1%nat [])). exact Hfeed.
Defined.

(** ** One element too many *)

(** X14.  A tuple given one value too many.  For a tuple whose element
    types read back ([round_trips (tuple Ts)], which leaves out enums), the
    handler as constructed and the value-initialized target: after
    [on_array_begin] and the events of a value for every element, any
    further event other than [on_array_begin] and [on_array_end] fails with
    [size_mismatch], no call having been made on the parent, and the target
    holds the values given. *)
Theorem tuple_handler_one_too_many
    (Ts : list ty) (vs : list value) (e : event) :
  round_trips (tuple Ts) → Forall2 has_type Ts vs →
  e ≠ on_array_begin → (∀ n, e ≠ on_array_end n) →
  ∃ h',
    feed (converting_handler (tuple Ts))
      (on_array_begin :: mjoin (zip_with events_of Ts vs) ++ [e])
      (make_handler (tuple Ts)) (default_value (tuple Ts)) []
    = Run h' (VTuple vs) [] (Some (Failure size_mismatch)).
Proof.
  intros Hrt Hvs Hbegin Hend.
  inversion Hrt as [| | | | | | |? HTs| | | |]; subst.
  assert (Forall reads_back Ts) as Hread.
  { eapply Forall_impl; [exact HTs|]. apply round_trips_reads_back. }
  pose proof (make_handler_idle (tuple Ts)) as Hidle.
  inversion Hidle as [| | | | | | | |? hs Hhs| |]; subst.
  pose proof (Forall2_length _ _ _ Hvs) as Hlen.
  destruct (tuple_reads_elements Ts vs (length vs) 0 _ Hread
              ltac:(by rewrite <- Hlen, take_ge by lia) Hhs ltac:(lia))
    as (hs' & _ & Hq).
  rewrite !drop_0, take_0 in Hq. cbn [app] in Hq.
  change (Z.of_nat 0) with 0 in Hq.
  rewrite drop_ge, app_nil_r in Hq by (rewrite length_map; lia).
  exists (tuple_members hs' (Z.of_nat (length vs))).
  cbn [feed make_handler]. cbn [converting_handler]. unfold tuple_handler at 1.
  cbn [default_value]. rewrite bool_decide_eq_true_2 by lia.
  change (tuple_handler (map converting_handler Ts))
    with (converting_handler (tuple Ts)).
  rewrite (quiet_feed _ _ [e] _ _ _ _ _ Hq).
  cbn [feed converting_handler]. unfold tuple_handler. rewrite length_map.
  rewrite (bool_decide_eq_false_2 (Z.of_nat (length vs) < 0)) by lia.
  rewrite (bool_decide_eq_true_2 (Z.of_nat (length vs) >= Z.of_nat (length Ts)))
    by lia.
  destruct e; try done. by destruct (Hend n).
Qed.

Lemma tuple_handler_one_too_many_witness :
  round_trips (tuple [integral int32_t; integral int32_t])
  ∧ Forall2 has_type [integral int32_t; integral int32_t] [VInt 1; VInt 2]
  ∧ ∃ h',
      feed (converting_handler (tuple [integral int32_t; integral int32_t]))
        [on_array_begin; on_int64 1 ""; on_int64 2 ""; on_int64 3 "3"]
        (make_handler (tuple [integral int32_t; integral int32_t]))
        (default_value (tuple [integral int32_t; integral int32_t])) []
      = Run h' (VTuple [VInt 1; VInt 2]) [] (Some (Failure size_mismatch)).
Proof.
  assert (round_trips (tuple [integral int32_t; integral int32_t])) as Hrt
    by (repeat constructor; simpl; lia).
  assert (Forall2 has_type [integral int32_t; integral int32_t]
            [VInt 1; VInt 2]) as Hvs by (repeat constructor; limits).
  split; [exact Hrt|]. split; [exact Hvs|].
  exact (tuple_handler_one_too_many [integral int32_t; integral int32_t]
           [VInt 1; VInt 2] (on_int64 3 "3") Hrt Hvs
           ltac:(discriminate) ltac:(discriminate)).
Defined.

(** ** An optional of any type, used once *)

(** An optional handler whose wrapped handler is active hands every event to
    it. *)
Lemma optional_handler_active (inner : step) (e : event)
    (inner_value_ : value) (inner_ : handler) (v : value) :
  optional_handler inner e (optional_members inner_value_ inner_ true) v
  = (let '(inner_', x, o) := inner e inner_ inner_value_ in
     match o with
     | Success (Some signal_value) =>
         (optional_members (moved_from x) inner_' false, VOpt (Some x),
          Success (Some signal_value))
     | _ => (optional_members x inner_' true, v, o)
     end).
Proof.
  destruct e; cbn; destruct (inner _ inner_ inner_value_) as [[? ?] [[[]|]| |]];
    reflexivity.
Qed.

Lemma optional_handler_value_active (inner : step) (es : list event)
    (inner_value_ x : value) (inner_ inner_' : handler) (v : value) :
  completes inner es inner_ inner_value_ = Some (inner_', x) →
  completes (optional_handler inner) es
    (optional_members inner_value_ inner_ true) v
  = Some (optional_members (moved_from x) inner_' false, VOpt (Some x)).
Proof.
  revert inner_value_ inner_. induction es as [|e es IH];
    intros inner_value_ inner_ Hc; [done|].
  cbn [completes] in *. rewrite optional_handler_active.
  destruct (inner e inner_ inner_value_) as [[h1 v1] [[[]|]| |]]; try done.
  - by destruct es; simplify_eq/=.
  - destruct es; [done|]. by apply IH.
Qed.

(** The first event of a value that is neither null nor an optional is
    neither [on_null] nor [on_array_end]. *)
Lemma events_of_starts_value (T : ty) (x : value) :
  round_trips T → has_type T x → T ≠ null_like → (∀ T', T ≠ optional T') →
  ∃ e es, events_of T x = e :: es ∧ e ≠ on_null ∧ ∀ n, e ≠ on_array_end n.
Proof.
  intros Hrt Hx Hnull Hopt.
  destruct Hx as [| ? [] ?| | | | | | | | | |]; try done; cbn [events_of];
    try (by destruct (Hopt T)); try case_bool_decide; eauto.
  inversion Hrt.
Qed.

(** X15.  An optional of any type that reads back, other than null and
    another optional, used once: the events of a value of the wrapped type,
    given to the optional handler as constructed, whatever the target holds,
    succeed, call [signal_value] once, at the last event, and leave the
    target the optional holding that value. *)
Theorem optional_handler_holds_value
    (T : ty) (x v : value) :
  round_trips T → has_type T x → T ≠ null_like → (∀ T', T ≠ optional T') →
  ∃ h',
    feed (converting_handler (optional T)) (events_of T x)
      (make_handler (optional T)) v []
    = Run h' (VOpt (Some x)) [signal_value] None
    ∧ completes (converting_handler (optional T)) (events_of T x)
        (make_handler (optional T)) v
      = Some (h', VOpt (Some x)).
Proof.
  intros Hrt Hx Hnull Hopt.
  destruct (round_trips_reads_back T Hrt) as [Hread _].
  destruct (Hread _ _ (make_handler_idle T) Hx) as (inner' & _ & Hc).
  destruct (events_of_starts_value T x Hrt Hx Hnull Hopt)
    as (e & es & He & Hen & Hea).
  exists (optional_members (moved_from x) inner' false).
  assert (completes (converting_handler (optional T)) (events_of T x)
            (make_handler (optional T)) v
          = Some (optional_members (moved_from x) inner' false,
                  VOpt (Some x))) as Hcopt.
  { rewrite He in *. cbn [completes make_handler converting_handler] in *.
    assert (optional_handler (converting_handler T) e
              (optional_members (default_value T) (make_handler T) false) v
            = optional_handler (converting_handler T) e
                (optional_members (default_value T) (make_handler T) true) v)
      as ->.
    { destruct e; try done. by destruct (Hea n). }
    rewrite optional_handler_active.
    destruct (converting_handler T e (make_handler T) (default_value T))
      as [[h1 v1] [[[]|]| |]]; try done.
    - by destruct es; simplify_eq/=.
    - destruct es; [done|]. by apply optional_handler_value_active. }
  pose proof (completes_feed _ _ [] _ _ _ _ [] Hcopt) as Hfeed.
  rewrite app_nil_r in Hfeed. split; [exact Hfeed|exact Hcopt].
Qed.

Lemma optional_handler_holds_value_witness :
  round_trips (sequence (integral int32_t))
  ∧ has_type (sequence (integral int32_t)) (VSeq [VInt 1; VInt 2])
  ∧ ∃ h',
      feed (converting_handler (optional (sequence (integral int32_t))))
        [on_array_begin; on_int64 1 ""; on_int64 2 ""; on_array_end 2]
        (make_handler (optional (sequence (integral int32_t))))
        (VOpt None) []
      = Run h' (VOpt (Some (VSeq [VInt 1; VInt 2]))) [signal_value] None.
Proof.
  assert (round_trips (sequence (integral int32_t))) as Hrt
    by (repeat constructor; simpl; lia).
  assert (has_type (sequence (integral int32_t)) (VSeq [VInt 1; VInt 2]))
    as Hx by (repeat constructor; limits).
  split; [exact Hrt|]. split; [exact Hx|].
  destruct (optional_handler_holds_value (sequence (integral int32_t))
              (VSeq [VInt 1; VInt 2]) (VOpt None) Hrt Hx
              ltac:(discriminate) ltac:(discriminate)) as (h' & Hfeed & _).
  exists h'. exact Hfeed.
Defined.
